(** * daz-obsidian-mcp: chunker, sync engine and document reconstruction

    A shallow embedding of [scanner.py] (the indexer) and of
    [daz-obsidian-mcp.py] (the search server), with the properties of the
    specification stated and settled against it.

    Conventions of the embedding.
    - A Python [str] is a Rocq [string] holding the UTF-8 code units of the
      text, so [str.encode('utf-8')] is the conversion to a byte list and
      [bytes.decode('utf-8')] is the strict validity check followed by the
      conversion back.
    - A Python [bytes] object is a [list ascii].
    - Offsets and indices are [nat]; the [limit] of a search is a Python
      [int], hence a [Z].
    - An exception is a [None]; a [try ... except Exception] block turns it
      into the value its handler returns. *)

From Stdlib Require Import ZArith QArith Ascii String List Lia.
From stdpp Require Import base option list gmap strings pretty sorting.

Local Open Scope nat_scope.

(** * Part I: the embedding *)

(** ** Constants of [scanner.py] *)

Definition CHUNK_SIZE : nat := 1024.
Definition OVERLAP_SIZE : nat := 256.
Definition STEP_SIZE : nat := CHUNK_SIZE - OVERLAP_SIZE.

(** ** Bytes and UTF-8 *)

Module Utf8.

Definition in_range (lo hi : N) (b : ascii) : bool :=
  ((lo <=? N_of_ascii b) && (N_of_ascii b <=? hi))%N.

Definition is_ascii (b : ascii) : bool := in_range 0x00 0x7F b.
Definition is_cont (b : ascii) : bool := in_range 0x80 0xBF b.

(** The second byte of a three-byte sequence: no overlong forms after
    [E0], no surrogates after [ED]. *)
Definition second_of_3 (b0 b1 : ascii) : bool :=
  if in_range 0xE0 0xE0 b0 then in_range 0xA0 0xBF b1
  else if in_range 0xED 0xED b0 then in_range 0x80 0x9F b1
  else is_cont b1.

(** The second byte of a four-byte sequence: no overlong forms after
    [F0], nothing above U+10FFFF after [F4]. *)
Definition second_of_4 (b0 b1 : ascii) : bool :=
  if in_range 0xF0 0xF0 b0 then in_range 0x90 0xBF b1
  else if in_range 0xF4 0xF4 b0 then in_range 0x80 0x8F b1
  else is_cont b1.

(** [valid bs] holds when the strict decoder accepts [bs]. *)
Fixpoint valid (bs : list ascii) : bool :=
  match bs with
  | [] => true
  | b0 :: r0 =>
      if is_ascii b0 then valid r0
      else if in_range 0xC2 0xDF b0 then
        match r0 with
        | b1 :: r1 => is_cont b1 && valid r1
        | _ => false
        end
      else if in_range 0xE0 0xEF b0 then
        match r0 with
        | b1 :: b2 :: r2 => second_of_3 b0 b1 && is_cont b2 && valid r2
        | _ => false
        end
      else if in_range 0xF0 0xF4 b0 then
        match r0 with
        | b1 :: b2 :: b3 :: r3 =>
            second_of_4 b0 b1 && is_cont b2 && is_cont b3 && valid r3
        | _ => false
        end
      else false
  end.

(** [content.encode('utf-8')] *)
Definition encode (s : string) : list ascii := list_ascii_of_string s.

(** [chunk_bytes.decode('utf-8')]; [None] is [UnicodeDecodeError]. *)
Definition decode (bs : list ascii) : option string :=
  if valid bs then Some (string_of_list_ascii bs) else None.

End Utf8.

(** ** The chunker *)

(** A chunk as [chunk_content] returns it: [(chunk_text, start_pos, end_pos)]. *)
Definition Chunk : Type := string * nat * nat.

Definition chunk_text (c : Chunk) : string := c.1.1.
Definition chunk_start (c : Chunk) : nat := c.1.2.
Definition chunk_end (c : Chunk) : nat := c.2.

(** [content_bytes[pos:end_pos]] *)
Definition slice (bs : list ascii) (pos end_pos : nat) : list ascii :=
  take (end_pos - pos) (drop pos bs).

(** The inner loop of [chunk_content]: starting from [end_pos = pos + len],
    step [end_pos] down until the slice decodes.  [Some (text, end_pos)] when
    the loop leaves through [break]; [None] when [end_pos] has come down to
    [pos]. *)
Fixpoint trim_decode (bs : list ascii) (pos len : nat) : option (string * nat) :=
  match len with
  | 0 => None
  | S len' =>
      match Utf8.decode (slice bs pos (pos + len)) with
      | Some text => Some (text, pos + len)
      | None => trim_decode bs pos len'
      end
  end.

(** The outer [while pos < len(content_bytes)] loop; [fuel] bounds the number
    of iterations. *)
Fixpoint chunk_loop (fuel : nat) (bs : list ascii) (pos : nat)
    (chunks : list Chunk) : list Chunk :=
  match fuel with
  | 0 => chunks
  | S fuel' =>
      if decide (pos < length bs) then
        let end_pos := Nat.min (pos + CHUNK_SIZE) (length bs) in
        let chunks' :=
          match trim_decode bs pos (end_pos - pos) with
          | Some (text, e) => chunks ++ [(text, pos, e)]
          | None => chunks
          end in
        chunk_loop fuel' bs (pos + STEP_SIZE) chunks'
      else chunks
  end.

(** [chunk_content(title, content)].  Each iteration advances [pos] by
    [STEP_SIZE > 0], so [len(content_bytes)] iterations are enough
    (see [chunk_loop_fuel]). *)
Definition chunk_content (title content : string) : list Chunk :=
  let content_bytes := Utf8.encode content in
  chunk_loop (length content_bytes) content_bytes 0 [(title, 0, 0)].

(** The byte length of a [str]. *)
Definition byte_length (s : string) : nat := length (Utf8.encode s).

(** ** Chunk ids *)

(** [f"{relative_path}_{i}"]: the index is printed in decimal. *)
Definition chunk_id (relative_path : string) (i : nat) : string :=
  relative_path +:+ "_" +:+ pretty i.

(** ** The Vector Index *)

(** The metadata [index_file] stores with every chunk. *)
Record Metadata := {
  file_path : string;
  title : string;
  chunk_index : nat;
  start_pos : nat;
  end_pos : nat;
  is_title_chunk : bool;
  full_path : string
}.

(** One record of the collection: id, document text, metadata. *)
Record ChunkRecord := {
  rec_id : string;
  rec_document : string;
  rec_metadata : Metadata
}.

(** A batch that changed the collection. *)
Inductive Mutation :=
  | DeleteBatch (ids : list string)
  | InsertBatch (ids : list string).

(** The collection of the external store, as far as this program observes
    it: its records, and the batches that changed it, oldest first. *)
Record VectorIndex := {
  records : list ChunkRecord;
  batches : list Mutation
}.

(** The [where] filter [{"file_path": relative_path}]. *)
Definition of_document (relative_path : string) (r : ChunkRecord) : Prop :=
  file_path (rec_metadata r) = relative_path.

Global Instance of_document_dec relative_path r :
  Decision (of_document relative_path r).
Proof. unfold of_document. apply _. Defined.

Module Collection.

(** [collection.get(where={"file_path": filepath})] *)
Definition get_where (c : VectorIndex) (filepath : string) : list ChunkRecord :=
  filter (of_document filepath) (records c).

(** [collection.delete(ids=ids)] *)
Definition delete (c : VectorIndex) (ids : list string) : VectorIndex :=
  {| records := filter (fun r => rec_id r ∉ ids) (records c);
     batches := batches c ++ [DeleteBatch ids] |}.

(** [collection.add(ids=..., documents=..., metadatas=...)].  The store
    documents that a record whose id the collection already holds is ignored
    and that no exception is raised for it. *)
Definition add (c : VectorIndex) (new : list ChunkRecord) : VectorIndex :=
  {| records :=
       records c ++ filter (fun r => rec_id r ∉ rec_id <$> records c) new;
     batches := batches c ++ [InsertBatch (rec_id <$> new)] |}.

End Collection.

(** ** The indexer *)

(** What is on disk under [metadata_file]: a complete serialization of a
    mapping, or a file that a failed write left incomplete. *)
Inductive MetadataFile :=
  | Holds (hashes : gmap string string)
  | Incomplete.

(** The state of an [ObsidianIndexer]. *)
Record Indexer := {
  collection : VectorIndex;
  file_hashes : gmap string string;
  metadata_file : MetadataFile
}.

(** A [pathlib.Path] argument, by what the code asks of it. *)
Record FilePath := {
  suffix : string;                       (* filepath.suffix *)
  stem : string;                         (* filepath.stem *)
  relative_to_vault : option string;     (* str(filepath.relative_to(self.vault_path)) *)
  path_str : string                      (* str(filepath) *)
}.

(** How the write of the metadata file goes. *)
Inductive SaveIO :=
  | SaveCompletes
  | SaveFailsAtOpen      (* [open] raises, the file is untouched *)
  | SaveFailsWriting.    (* raises after [open(..., 'w')] truncated the file *)

(** What the file system and the store do during one call: what reading and
    hashing the file give ([None]: the call raises), and which calls on the
    collection raise.  A call on the collection that raises changes nothing. *)
Record World := {
  read_text : option string;
  calculate_file_hash : option string;
  get_raises : bool;
  delete_raises : bool;
  add_raises : bool;
  save_io : SaveIO
}.

(** Code that runs on the indexer and may raise: the state reached so far
    survives an exception. *)
Definition Sync (A : Type) : Type := Indexer -> option A * Indexer.

Global Instance Sync_ret : MRet Sync := fun A a s => (Some a, s).
Global Instance Sync_bind : MBind Sync := fun A B f m s =>
  match m s with
  | (Some a, s') => f a s'
  | (None, s') => (None, s')
  end.

Definition raise {A} : Sync A := fun s => (None, s).

(** An external call that returns [v] or raises. *)
Definition call {A} (result : option A) : Sync A := fun s => (result, s).

Definition get_state : Sync Indexer := fun s => (Some s, s).
Definition put_state (s' : Indexer) : Sync unit := fun _ => (Some tt, s').

(** [try: body except Exception as e: logger.error(...)] *)
Definition try_except (body : Sync unit) : Sync unit := fun s =>
  (Some tt, (body s).2).

Definition set_collection (c : VectorIndex) (s : Indexer) : Indexer :=
  {| collection := c; file_hashes := file_hashes s;
     metadata_file := metadata_file s |}.

Definition set_file_hashes (h : gmap string string) (s : Indexer) : Indexer :=
  {| collection := collection s; file_hashes := h;
     metadata_file := metadata_file s |}.

Definition set_metadata_file (f : MetadataFile) (s : Indexer) : Indexer :=
  {| collection := collection s; file_hashes := file_hashes s;
     metadata_file := f |}.

Section Indexing.

Variable world : World.

Definition collection_get (filepath : string) : Sync (list ChunkRecord) :=
  if get_raises world then raise
  else s ← get_state; mret (Collection.get_where (collection s) filepath).

Definition collection_delete (ids : list string) : Sync unit :=
  if delete_raises world then raise
  else s ← get_state;
       put_state (set_collection (Collection.delete (collection s) ids) s).

Definition collection_add (new : list ChunkRecord) : Sync unit :=
  if add_raises world then raise
  else s ← get_state;
       put_state (set_collection (Collection.add (collection s) new) s).

(** [save_metadata] *)
Definition save_metadata : Sync unit :=
  match save_io world with
  | SaveCompletes =>
      s ← get_state; put_state (set_metadata_file (Holds (file_hashes s)) s)
  | SaveFailsAtOpen => raise
  | SaveFailsWriting =>
      s ← get_state; put_state (set_metadata_file Incomplete s);; raise
  end.

(** [remove_file_chunks] *)
Definition remove_file_chunks (filepath : string) : Sync unit :=
  try_except (
    results ← collection_get filepath;
    match results with
    | [] => mret tt
    | _ => collection_delete (rec_id <$> results)
    end).

(** The record [index_file] builds for chunk number [i]. *)
Definition chunk_record (filepath : FilePath) (relative_path title : string)
    (i : nat) (c : Chunk) : ChunkRecord :=
  let '(chunk_text, start_pos, end_pos) := c in
  {| rec_id := chunk_id relative_path i;
     rec_document := chunk_text;
     rec_metadata :=
       {| file_path := relative_path;
          title := title;
          chunk_index := i;
          start_pos := start_pos;
          end_pos := end_pos;
          is_title_chunk := bool_decide (i = 0);
          full_path := path_str filepath |} |}.

Definition chunk_records (filepath : FilePath) (relative_path title content : string)
    : list ChunkRecord :=
  imap (chunk_record filepath relative_path title) (chunk_content title content).

(** [index_file] *)
Definition index_file (filepath : FilePath) : Sync unit :=
  if bool_decide (suffix filepath ∈ [".md"; ".markdown"]%string) then
    try_except (
      content ← call (read_text world);
      let title := stem filepath in
      current_hash ← call (calculate_file_hash world);
      relative_path ← call (relative_to_vault filepath);
      s ← get_state;
      if decide (file_hashes s !! relative_path = Some current_hash) then
        mret tt
      else
        (if decide (is_Some (file_hashes s !! relative_path))
         then remove_file_chunks relative_path else mret tt);;
        collection_add (chunk_records filepath relative_path title content);;
        s ← get_state;
        put_state (set_file_hashes (<[relative_path := current_hash]> (file_hashes s)) s);;
        save_metadata)
  else mret tt.

(** [remove_file] *)
Definition remove_file (filepath : FilePath) : Sync unit :=
  try_except (
    relative_path ← call (relative_to_vault filepath);
    remove_file_chunks relative_path;;
    s ← get_state;
    if decide (is_Some (file_hashes s !! relative_path)) then
      put_state (set_file_hashes (delete relative_path (file_hashes s)) s);;
      save_metadata
    else mret tt).

End Indexing.

(** The state after a call. *)
Definition run (m : Sync unit) (s : Indexer) : Indexer := (m s).2.

(** ** The search server *)

(** A distance is a Python float; the embedding takes it as a rational
    number, with its exact order and subtraction. *)
Definition Distance : Type := Q.

(** One match of [collection.query]: the entries at one position of
    [ids[0]], [documents[0]], [metadatas[0]] and [distances[0]]. *)
Record Hit := {
  hit_id : string;
  hit_document : string;
  hit_metadata : Metadata;
  hit_distance : Distance
}.

(** The collection as the search server reaches it; [None]: the call raises. *)
Record Store := {
  (* collection.query(query_texts=[query], n_results=n, include=...) *)
  query : string -> Z -> option (list Hit);
  (* collection.get(where={"file_path": file_path}, include=...) *)
  get : string -> option (list ChunkRecord)
}.

(** A result of [search_snippets]. *)
Record Snippet := {
  snippet_chunk_id : string;
  snippet_content : string;
  snippet_metadata : Metadata;
  snippet_distance : Distance
}.

(** A result of [search_full]. *)
Record Article := {
  article_file_path : string;
  article_title : string;
  article_full_path : string;
  article_content : string;
  article_relevance_score : Q
}.

(** [try: ... return result except Exception as e: ... return []] *)
Definition or_empty {A} (body : option (list A)) : list A := default [] body.

Global Instance Qle_decision : RelDecision Qle.
Proof.
  intros x y. destruct (Qlt_le_dec y x) as [Hlt|Hle].
  - right. by apply Qlt_not_le.
  - by left.
Defined.

Global Instance Qlt_decision : RelDecision Qlt.
Proof.
  intros x y. destruct (Qlt_le_dec x y) as [Hlt|Hle].
  - by left.
  - right. by apply Qle_not_lt.
Defined.

(** [sorted(l, key=key)] and [l.sort(key=key)]: a stable sort, here by
    insertion; an element goes in front of the first one whose key is not
    smaller than its own. *)
Fixpoint insert_by {A K} (le : relation K) `{!RelDecision le} (key : A -> K)
    (x : A) (l : list A) : list A :=
  match l with
  | [] => [x]
  | y :: l' =>
      if decide (le (key x) (key y)) then x :: l
      else y :: insert_by le key x l'
  end.

Definition sorted {A K} (le : relation K) `{!RelDecision le} (key : A -> K)
    (l : list A) : list A :=
  foldr (insert_by le key) [] l.

(** [l[:limit]] for a Python [int]: a negative [limit] counts from the end. *)
Definition slice_to {A} (limit : Z) (l : list A) : list A :=
  if decide (0 <= limit)%Z then take (Z.to_nat limit) l
  else take (length l - Z.to_nat (- limit)) l.

(** [file_scores], a [dict] from file path to distance, in insertion order. *)
Definition Scores : Type := list (string * Distance).

Fixpoint scores_get (k : string) (d : Scores) : option Distance :=
  match d with
  | [] => None
  | (k', v) :: d' => if decide (k = k') then Some v else scores_get k d'
  end.

(** [file_scores[k] = v]: a new key goes last, a known key keeps its place. *)
Fixpoint scores_set (k : string) (v : Distance) (d : Scores) : Scores :=
  match d with
  | [] => [(k, v)]
  | (k', v') :: d' =>
      if decide (k = k') then (k, v) :: d' else (k', v') :: scores_set k v d'
  end.

(** One round of the loop that collects the best distance of every file. *)
Definition score_hit (file_scores : Scores) (h : Hit) : Scores :=
  let file_path := file_path (hit_metadata h) in
  let distance := hit_distance h in
  match scores_get file_path file_scores with
  | None => scores_set file_path distance file_scores
  | Some best =>
      if decide (distance < best)%Q
      then scores_set file_path distance file_scores
      else file_scores
  end.

Definition collect_scores (hits : list Hit) : Scores :=
  fold_left score_hit hits [].

Definition chunk_order (r : ChunkRecord) : nat := chunk_index (rec_metadata r).

(** The body of the loop over [sorted_files]: [None] when [get] raises,
    [Some None] on [continue], [Some (Some article)] otherwise. *)
Definition reconstruct (store : Store) (entry : string * Distance)
    : option (option Article) :=
  let '(file_path, best_distance) := entry in
  file_chunks ← get store file_path;
  match file_chunks with
  | [] => Some None
  | _ =>
      let chunks_data := sorted le chunk_order file_chunks in
      let content_parts := rec_document <$> tail chunks_data in
      let full_content := String.concat EmptyString content_parts in
      first_chunk ← head chunks_data;
      let first_chunk_metadata := rec_metadata first_chunk in
      Some (Some {| article_file_path := file_path;
                    article_title := title first_chunk_metadata;
                    article_full_path := full_path first_chunk_metadata;
                    article_content := full_content;
                    article_relevance_score := 1 - best_distance |})
  end.

(** The loop over [sorted_files]. *)
Fixpoint reconstruct_all (store : Store) (sorted_files : Scores)
    (articles : list Article) : option (list Article) :=
  match sorted_files with
  | [] => Some articles
  | entry :: rest =>
      made ← reconstruct store entry;
      match made with
      | None => reconstruct_all store rest articles
      | Some article => reconstruct_all store rest (articles ++ [article])
      end
  end.

(** [search_snippets] *)
Definition search_snippets (store : Store) (q : string) (limit : Z)
    : list Snippet :=
  or_empty (
    results ← query store q limit;
    match results with
    | [] => Some []
    | _ =>
        Some ((fun h => {| snippet_chunk_id := hit_id h;
                           snippet_content := hit_document h;
                           snippet_metadata := hit_metadata h;
                           snippet_distance := hit_distance h |}) <$> results)
    end).

(** [search_full] *)
Definition search_full (store : Store) (q : string) (limit : Z)
    : list Article :=
  or_empty (
    chunk_results ← query store q (limit * 3)%Z;
    match chunk_results with
    | [] => Some []
    | _ =>
        let file_scores := collect_scores chunk_results in
        let sorted_files := slice_to limit (sorted Qle snd file_scores) in
        reconstruct_all store sorted_files []
    end).

(** The matches [search_full] works on: what the similarity query for
    [limit * 3] chunks returned, nothing when it raised. *)
Definition matches (store : Store) (q : string) (limit : Z) : list Hit :=
  default [] (query store q (limit * 3)%Z).

(** The store the search server sees when the collection is [c]. *)
Definition store_of (c : VectorIndex)
    (answers : string -> Z -> option (list Hit)) : Store :=
  {| query := answers; get := fun path => Some (Collection.get_where c path) |}.

(** ** The metadata file on disk *)







(** * Part II: the vocabulary of the statements *)

(** ** Windows of the chunker *)

(** What every window satisfies, whatever the bytes are. *)
Definition window_ok (bs : list ascii) (pos : nat) (w : Chunk) : Prop :=
  pos <= chunk_start w /\ chunk_start w < chunk_end w /\
  chunk_end w <= chunk_start w + CHUNK_SIZE /\ chunk_end w <= length bs /\
  Utf8.decode (slice bs (chunk_start w) (chunk_end w)) = Some (chunk_text w).

(** The second window starts at least one step after the first. *)
Definition stepped (w1 w2 : Chunk) : Prop :=
  chunk_start w1 + STEP_SIZE <= chunk_start w2.

(** Every byte is a one-byte character. *)
Definition all_ascii (bs : list ascii) : Prop :=
  Forall (fun b => Utf8.is_ascii b = true) bs.

(** The window at [pos] when nothing has to be trimmed. *)
Definition ascii_window (bs : list ascii) (pos : nat) : Chunk :=
  let e := Nat.min (pos + CHUNK_SIZE) (length bs) in
  (string_of_list_ascii (slice bs pos e), pos, e).

(** Two consecutive windows share exactly [OVERLAP_SIZE] bytes, unless the
    second one is the last window and is shorter than that, in which case it
    lies wholly inside the first. *)
Definition overlap_exact (ws : list Chunk) : Prop :=
  forall i w1 w2, ws !! i = Some w1 -> ws !! S i = Some w2 ->
    chunk_end w1 = chunk_start w2 + OVERLAP_SIZE \/
    (ws !! S (S i) = None /\ chunk_end w1 = chunk_end w2 /\
     chunk_end w2 < chunk_start w2 + OVERLAP_SIZE).

(** The [(start_pos, end_pos)] of every chunk. *)
Definition spans (chunks : list Chunk) : list (nat * nat) :=
  map (fun c => (chunk_start c, chunk_end c)) chunks.

(** ** Chunk ids and the collection *)

(** [occurs c s]: the character [c] occurs in [s]. *)
Fixpoint occurs (c : ascii) (s : string) : Prop :=
  match s with
  | EmptyString => False
  | String a s' => a = c \/ occurs c s'
  end.

(** The id of a record is the one [index_file] gives to its path and index. *)
Definition canonical_record (r : ChunkRecord) : Prop :=
  rec_id r = chunk_id (file_path (rec_metadata r)) (chunk_index (rec_metadata r)).

(** Every record of the collection has the id of its path and index. *)
Definition canonical (c : VectorIndex) : Prop :=
  Forall canonical_record (records c).

(** The collection after the old chunks of [relative_path] were removed. *)
Definition without_chunks (c : VectorIndex) (relative_path : string) : VectorIndex :=
  match Collection.get_where c relative_path with
  | [] => c
  | r :: rs => Collection.delete c (rec_id <$> r :: rs)
  end.

(** The records of a document hold exactly one chunk with index 0. *)
Definition titled (chunks : list ChunkRecord) : Prop :=
  length (filter (fun r => chunk_order r = 0) chunks) = 1.

(** Every stored record has, in the collection, the title chunk of its
    document. *)
Definition has_title (c : VectorIndex) : Prop :=
  forall r, r ∈ records c ->
    exists r0, r0 ∈ records c /\
      of_document (file_path (rec_metadata r)) r0 /\ chunk_order r0 = 0.

(** What [index_file] and [remove_file] keep true of the collection. *)
Definition well_kept (c : VectorIndex) : Prop :=
  canonical c /\ NoDup (rec_id <$> records c) /\ has_title c.

(** ** Worlds and paths *)

(** A world in which nothing raises: the file reads as [content], hashes to
    [hash], and every call on the store and on the metadata file goes well. *)
Definition succeeds (world : World) (content hash : string) : Prop :=
  read_text world = Some content /\
  calculate_file_hash world = Some hash /\
  get_raises world = false /\ delete_raises world = false /\
  add_raises world = false /\ save_io world = SaveCompletes.

(** The suffix [index_file] accepts. *)
Definition markdown (filepath : FilePath) : Prop :=
  suffix filepath ∈ [".md"; ".markdown"]%string.

(** ** Ranking and reconstruction *)

(** The order a sort by [key] leaves a list in. *)
Definition by_key {A K : Type} (le : relation K) (key : A -> K) (a b : A) : Prop :=
  le (key a) (key b).

(** [d] is the distance of a best match of [file_path] among [hits]. *)
Definition best_distance (hits : list Hit) (path : string) (d : Distance) : Prop :=
  (exists h, h ∈ hits /\ file_path (hit_metadata h) = path /\ hit_distance h = d) /\
  (forall h, h ∈ hits -> file_path (hit_metadata h) = path ->
     (d <= hit_distance h)%Q).

(** What the loop over the matches keeps true of [file_scores]: one entry
    per file seen so far, holding the best distance seen for it. *)
Definition scores_of (seen : list Hit) (file_scores : Scores) : Prop :=
  NoDup file_scores.*1 /\
  (forall path d, scores_get path file_scores = Some d -> best_distance seen path d) /\
  (forall path, scores_get path file_scores = None ->
     forall h, h ∈ seen -> file_path (hit_metadata h) <> path).

(** The articles the loop appends, entry by entry. *)
Inductive rebuilt (store : Store) : Scores -> list Article -> Prop :=
  | rebuilt_nil : rebuilt store [] []
  | rebuilt_skip e es arts :
      reconstruct store e = Some None ->
      rebuilt store es arts -> rebuilt store (e :: es) arts
  | rebuilt_keep e es a arts :
      reconstruct store e = Some (Some a) ->
      rebuilt store es arts -> rebuilt store (e :: es) (a :: arts).

(** ** Inputs of the examples *)

(** A content made of [n] copies of one character, given by its bytes. *)
Definition repeat_bytes (n : nat) (unit : list ascii) : string :=
  string_of_list_ascii (concat (replicate n unit)).

(** U+20AC, the euro sign: three bytes. *)
Definition euro_sign : list ascii :=
  [ascii_of_N 0xE2; ascii_of_N 0x82; ascii_of_N 0xAC].

(** U+1F600, a face: four bytes. *)
Definition grinning_face : list ascii :=
  [ascii_of_N 0xF0; ascii_of_N 0x9F; ascii_of_N 0x98; ascii_of_N 0x80].

Definition note_path : FilePath :=
  {| suffix := ".md"; stem := "a";
     relative_to_vault := Some "notes/a.md"%string;
     path_str := "/vault/notes/a.md" |}.

(** Nothing raises. *)
Definition calm (content hash : string) : World :=
  {| read_text := Some content; calculate_file_hash := Some hash;
     get_raises := false; delete_raises := false; add_raises := false;
     save_io := SaveCompletes |}.

(** Only [collection.delete] raises. *)
Definition delete_fails (content hash : string) : World :=
  {| read_text := Some content; calculate_file_hash := Some hash;
     get_raises := false; delete_raises := true; add_raises := false;
     save_io := SaveCompletes |}.

(** Only [collection.add] raises. *)
Definition add_fails (content hash : string) : World :=
  {| read_text := Some content; calculate_file_hash := Some hash;
     get_raises := false; delete_raises := false; add_raises := true;
     save_io := SaveCompletes |}.

Definition empty_indexer : Indexer :=
  {| collection := {| records := []; batches := [] |};
     file_hashes := ∅; metadata_file := Holds ∅ |}.

(** The note indexed once, with content [x] and fingerprint [h1]. *)
Definition indexed_once : Indexer :=
  run (index_file (calm "x" "h1") note_path) empty_indexer.

Definition sample_metadata (path : string) (i : nat) : Metadata :=
  {| file_path := path; title := path; chunk_index := i;
     start_pos := 0; end_pos := 0; is_title_chunk := bool_decide (i = 0);
     full_path := path |}.

Definition sample_hit (path : string) (i : nat) (d : Q) : Hit :=
  {| hit_id := chunk_id path i; hit_document := "text";
     hit_metadata := sample_metadata path i; hit_distance := d |}.

Definition sample_record (path : string) (i : nat) (text : string) : ChunkRecord :=
  {| rec_id := chunk_id path i; rec_document := text;
     rec_metadata := sample_metadata path i |}.

Definition sample_hits : list Hit :=
  [sample_hit "b" 1 (3 # 10); sample_hit "a" 2 (2 # 10);
   sample_hit "b" 2 (1 # 10); sample_hit "c" 1 (5 # 10)].

Definition sample_get (path : string) : option (list ChunkRecord) :=
  if decide (path = "a"%string) then
    Some [sample_record "a" 2 "A2"; sample_record "a" 0 "a"; sample_record "a" 1 "A1"]
  else if decide (path = "b"%string) then
    Some [sample_record "b" 0 "b"; sample_record "b" 1 "B1"]
  else Some [].

(** A store that answers every query with the same four matches. *)
Definition sample_store : Store :=
  {| query := fun _ _ => Some sample_hits; get := sample_get |}.

(** The same store, refusing a request for no or negatively many results. *)
Definition strict_store : Store :=
  {| query := fun _ n => if decide (0 < n)%Z then Some sample_hits else None;
     get := sample_get |}.

Definition sample_article : Article :=
  {| article_file_path := "a"; article_title := "a"; article_full_path := "a";
     article_content := "A1A2"; article_relevance_score := 8 # 10 |}.







(** Another note of the vault. *)
Definition other_path : FilePath :=
  {| suffix := ".markdown"; stem := "b";
     relative_to_vault := Some "notes/b.markdown"%string;
     path_str := "/vault/notes/b.markdown" |}.

(** ** More of the chunker *)

(** The content windows of a result: everything after the title chunk. *)
Definition windows (title content : string) : list Chunk :=
  tail (chunk_content title content).

(** How many windows a content of [len] bytes gets when none is left out. *)
Definition window_count (len : nat) : nat :=
  (len + STEP_SIZE - 1) / STEP_SIZE.

(** The offset [pos] is the start of a character of well-formed text. *)
Definition boundary (bs : list ascii) (pos : nat) : Prop :=
  Utf8.valid (drop pos bs) = true.

(** ** More of the indexer *)

(** [initial_index]: the loop over [md_files], each file with the world its
    call to [index_file] meets. *)
Fixpoint initial_index (md_files : list (World * FilePath)) : Sync unit :=
  match md_files with
  | [] => mret tt
  | (world, filepath) :: rest =>
      index_file world filepath;; initial_index rest
  end.

(** The collection [remove_file_chunks] leaves: untouched when [get] or
    [delete] raises. *)
Definition removal (world : World) (c : VectorIndex) (relative_path : string)
    : VectorIndex :=
  if get_raises world || delete_raises world then c
  else without_chunks c relative_path.

(** The metadata file [save_metadata] leaves when asked to write [hashes]
    over [old]. *)
Definition saved_as (world : World) (hashes : gmap string string)
    (old : MetadataFile) : MetadataFile :=
  match save_io world with
  | SaveCompletes => Holds hashes
  | SaveFailsAtOpen => old
  | SaveFailsWriting => Incomplete
  end.

(** The metadata file holds what [file_hashes] holds. *)
Definition in_sync (s : Indexer) : Prop :=
  metadata_file s = Holds (file_hashes s).

(** The path of a scanned file is not [path]. *)
Definition not_scanned (path : string) (md_files : list (World * FilePath)) : Prop :=
  Forall (fun entry => relative_to_vault entry.2 <> Some path) md_files.

(** The stored fingerprint of a scanned file is its current hash. *)
Definition unchanged (s : Indexer) (entry : World * FilePath) : Prop :=
  exists rel hash,
    relative_to_vault entry.2 = Some rel /\
    calculate_file_hash entry.1 = Some hash /\
    file_hashes s !! rel = Some hash.

(** A call meets a failure before the fingerprint is recorded. *)
Definition fails_early (world : World) : Prop :=
  read_text world = None \/ calculate_file_hash world = None \/
  add_raises world = true.

(** Only reading the file fails. *)
Definition read_fails (hash : string) : World :=
  {| read_text := None; calculate_file_hash := Some hash;
     get_raises := false; delete_raises := false; add_raises := false;
     save_io := SaveCompletes |}.

(** The two notes indexed, [notes/a.md] with content [x] and fingerprint
    [h1], [notes/b.markdown] with content [z] and fingerprint [h3]. *)
Definition indexed_twice : Indexer :=
  run (index_file (calm "z" "h3") other_path) indexed_once.

(** ** The fingerprint of a file *)

(** The size [calculate_file_hash] passes to [f.read]. *)
Definition BLOCK_SIZE : nat := 4096.

Module FileHash.

Section Hashing.

(** A [hashlib] hash object: [hashlib.md5()], [update] and [hexdigest]. *)
Variable Hasher : Type.
Variable md5 : Hasher.
Variable update : Hasher -> list ascii -> Hasher.
Variable hexdigest : Hasher -> string.

(** [f.read(n)] on a file opened with ["rb"], of which [f] is still to be
    read: the next [n] bytes, fewer at the end of the file, and what is
    left. *)
Definition read (n : nat) (f : list ascii) : list ascii * list ascii :=
  (take n f, drop n f).

(** [for chunk in iter(lambda: f.read(4096), b""): hash_md5.update(chunk)];
    [fuel] bounds the number of reads. *)
Fixpoint read_blocks (fuel : nat) (f : list ascii) (hash_md5 : Hasher)
    : option Hasher :=
  match fuel with
  | 0 => None
  | S fuel' =>
      let '(chunk, f') := read BLOCK_SIZE f in
      match chunk with
      | [] => Some hash_md5
      | _ => read_blocks fuel' f' (update hash_md5 chunk)
      end
  end.

(** [calculate_file_hash(filepath)] on a file that holds [content]: one read
    per block, and the read that finds the end of the file. *)
Definition calculate_file_hash (content : list ascii) : option string :=
  hash_md5 ← read_blocks (S (length content)) content md5;
  Some (hexdigest hash_md5).

End Hashing.

End FileHash.

(** A hash object to run the model on: a polynomial checksum. *)
Definition checksum_update (h : nat) (bs : list ascii) : nat :=
  fold_left (fun acc b => (acc * 31 + nat_of_ascii b) mod 251) bs h.

(** A similarity query that always finds one chunk of the note. *)
Definition note_answers (q : string) (n_results : Z) : option (list Hit) :=
  Some [sample_hit "notes/a.md" 1 (1 # 4)].

(** The article made of the note when its content is [x]. *)
Definition note_article : Article :=
  {| article_file_path := "notes/a.md"; article_title := "a";
     article_full_path := "/vault/notes/a.md"; article_content := "x";
     article_relevance_score := 1 - (1 # 4) |}.

(** One byte, then 700 euro signs: from then on every third byte starts a
    character, and offset 768 does not. *)
Definition shifted_euros : string :=
  string_of_list_ascii ("a"%char :: concat (replicate 700 euro_sign)).

(** ** The watcher *)

(** A file system event, by what [ObsidianEventHandler] asks of it. *)
Inductive EventKind := Created | Modified | Deleted.

Record Event := {
  kind : EventKind;
  is_directory : bool;            (* event.is_directory *)
  src_markdown : bool;            (* event.src_path.endswith(('.md', '.markdown')) *)
  src_path : FilePath             (* Path(event.src_path) *)
}.

Section Watching.

Variable world : World.

(** [on_created] *)
Definition on_created (event : Event) : Sync unit :=
  if negb (is_directory event) && src_markdown event
  then index_file world (src_path event) else mret tt.

(** [on_modified] *)
Definition on_modified (event : Event) : Sync unit :=
  if negb (is_directory event) && src_markdown event
  then index_file world (src_path event) else mret tt.

(** [on_deleted] *)
Definition on_deleted (event : Event) : Sync unit :=
  if negb (is_directory event) && src_markdown event
  then remove_file world (src_path event) else mret tt.

(** The observer hands an event to the method of its kind. *)
Definition dispatch (event : Event) : Sync unit :=
  match kind event with
  | Created => on_created event
  | Modified => on_modified event
  | Deleted => on_deleted event
  end.

End Watching.

(** The events the observer delivers, one after the other, each with the
    world its handler meets. *)
Fixpoint watch (events : list (World * Event)) : Sync unit :=
  match events with
  | [] => mret tt
  | (world, event) :: rest => dispatch world event;; watch rest
  end.

(** [main], from the indexer it has made: the initial scan, then the
    events. *)
Definition serve (md_files : list (World * FilePath))
    (events : list (World * Event)) : Sync unit :=
  initial_index md_files;; watch events.

(** The note is written, changed and deleted. *)
Definition note_events : list (World * Event) :=
  [(calm "x" "h1",
    {| kind := Created; is_directory := false; src_markdown := true;
       src_path := note_path |});
   (delete_fails "y" "h2",
    {| kind := Modified; is_directory := false; src_markdown := true;
       src_path := note_path |});
   (calm "y" "h2",
    {| kind := Deleted; is_directory := false; src_markdown := true;
       src_path := note_path |})].

(** * Part III: the properties *)

Example chunk_content_small :
  chunk_content "t" "abc" = [("t", 0, 0); ("abc", 0, 3)]%string.
Proof. vm_compute. reflexivity. Qed.

(** ** The chunker *)

Section Chunker.

Lemma sizes : CHUNK_SIZE = 1024 /\ OVERLAP_SIZE = 256 /\ STEP_SIZE = 768.
Proof. repeat split; reflexivity. Qed.

Lemma chunk_loop_S fuel bs pos chunks :
  chunk_loop (S fuel) bs pos chunks =
    if decide (pos < length bs) then
      chunk_loop fuel bs (pos + STEP_SIZE)
        match trim_decode bs pos (Nat.min (pos + CHUNK_SIZE) (length bs) - pos) with
        | Some (text, e) => chunks ++ [(text, pos, e)]
        | None => chunks
        end
    else chunks.
Proof. reflexivity. Qed.

Lemma trim_decode_S bs pos len :
  trim_decode bs pos (S len) =
    match Utf8.decode (slice bs pos (pos + S len)) with
    | Some text => Some (text, pos + S len)
    | None => trim_decode bs pos len
    end.
Proof. reflexivity. Qed.

Global Opaque CHUNK_SIZE OVERLAP_SIZE STEP_SIZE.

(** The list being built is only ever appended to. *)
Lemma chunk_loop_app fuel bs : forall pos chunks,
  chunk_loop fuel bs pos chunks = chunks ++ chunk_loop fuel bs pos [].
Proof.
  induction fuel as [|fuel IH]; intros pos chunks.
  - simpl. by rewrite app_nil_r.
  - rewrite !chunk_loop_S. case_decide; [|by rewrite app_nil_r].
    destruct (trim_decode _ _ _) as [[text e]|].
    + rewrite (IH _ (chunks ++ _)), (IH _ ([] ++ _)). by rewrite <- app_assoc.
    + apply IH.
Qed.

Lemma chunk_loop_done fuel bs pos chunks :
  length bs <= pos -> chunk_loop fuel bs pos chunks = chunks.
Proof.
  intros Hle. destruct fuel; [done|].
  rewrite chunk_loop_S. case_decide; [lia|done].
Qed.

(** The loop leaves through its condition, never for want of fuel: any two
    amounts of fuel that cover the remaining content give the same list. *)
Lemma chunk_loop_fuel bs : forall fuel fuel' pos chunks,
  length bs <= pos + fuel * STEP_SIZE ->
  length bs <= pos + fuel' * STEP_SIZE ->
  chunk_loop fuel bs pos chunks = chunk_loop fuel' bs pos chunks.
Proof.
  pose proof sizes as (_ & _ & Hstep).
  induction fuel as [|fuel IH]; intros fuel' pos chunks H1 H2.
  - rewrite !chunk_loop_done; [done|lia|lia].
  - destruct fuel' as [|fuel'].
    + rewrite !chunk_loop_done; [done|lia|lia].
    + rewrite !chunk_loop_S. case_decide; [|done].
      apply IH; lia.
Qed.

(** Hence the fuel [chunk_content] gives the loop is enough: more fuel
    changes nothing. *)
Lemma chunk_content_fuel title content extra :
  chunk_loop (length (Utf8.encode content) + extra) (Utf8.encode content) 0
    [(title, 0, 0)] = chunk_content title content.
Proof.
  pose proof sizes as (_ & _ & Hstep).
  unfold chunk_content. apply chunk_loop_fuel; lia.
Qed.

Lemma trim_decode_Some bs pos len text e :
  trim_decode bs pos len = Some (text, e) ->
  pos < e /\ e <= pos + len /\ Utf8.decode (slice bs pos e) = Some text.
Proof.
  induction len as [|len IH]; [done|].
  rewrite trim_decode_S.
  destruct (Utf8.decode (slice bs pos (pos + S len))) as [t|] eqn:Hdec.
  - intros Heq. simplify_eq. repeat split; [lia|lia|done].
  - intros H. destruct (IH H) as (? & ? & ?). repeat split; [lia|lia|done].
Qed.

Lemma chunk_loop_windows bs : forall fuel pos,
  Forall (window_ok bs pos) (chunk_loop fuel bs pos []) /\
  StronglySorted stepped (chunk_loop fuel bs pos []).
Proof.
  induction fuel as [|fuel IH]; intros pos.
  - split; constructor.
  - rewrite chunk_loop_S. case_decide as Hlt; [|split; constructor].
    destruct (IH (pos + STEP_SIZE)) as [IHok IHsorted].
    assert (Forall (window_ok bs pos) (chunk_loop fuel bs (pos + STEP_SIZE) [])) as Hweak.
    { eapply Forall_impl; [exact IHok|].
      intros w (? & ? & ? & ? & ?). repeat split; [lia|done..]. }
    destruct (trim_decode _ _ _) as [[text e]|] eqn:Htrim; [|done].
    rewrite chunk_loop_app. simpl.
    apply trim_decode_Some in Htrim as (? & ? & ?).
    split.
    + constructor; [|done].
      unfold window_ok, chunk_start, chunk_end, chunk_text; simpl.
      repeat split; [lia..|done].
    + constructor; [done|].
      eapply Forall_impl; [exact IHok|].
      intros w (? & _). unfold stepped, chunk_start at 1; simpl. lia.
Qed.

Lemma StronglySorted_adjacent {A} (R : relation A) (l : list A) :
  StronglySorted R l ->
  forall i a b, l !! i = Some a -> l !! S i = Some b -> R a b.
Proof.
  induction 1 as [|x l Hs IH Hall]; intros i a b Ha Hb; [done|].
  destruct i as [|i]; simpl in *.
  - simplify_eq. rewrite Forall_forall in Hall.
    apply Hall. eapply list_elem_of_lookup_2. exact Hb.
  - eapply IH; eassumption.
Qed.

Lemma StronglySorted_weaken {A} (R R' : relation A) (l : list A) :
  (forall a b, R a b -> R' a b) -> StronglySorted R l -> StronglySorted R' l.
Proof.
  intros HR. induction 1 as [|x l Hs IH Hall]; constructor; [done|].
  eapply Forall_impl; [exact Hall|]. intros b. apply HR.
Qed.

(** *** Content made of one-byte characters only *)

Lemma valid_all_ascii bs : all_ascii bs -> Utf8.valid bs = true.
Proof. induction 1 as [|b bs Hb _ IH]; simpl; [done|]. by rewrite Hb. Qed.

Lemma all_ascii_slice bs pos e : all_ascii bs -> all_ascii (slice bs pos e).
Proof. intros H. unfold slice. by apply Forall_take, Forall_drop. Qed.

Lemma trim_decode_ascii bs pos len :
  all_ascii bs -> 0 < len ->
  trim_decode bs pos len =
    Some (string_of_list_ascii (slice bs pos (pos + len)), pos + len).
Proof.
  intros Hbs Hlen. destruct len as [|len]; [lia|].
  rewrite trim_decode_S. unfold Utf8.decode.
  by rewrite (valid_all_ascii _ (all_ascii_slice bs pos _ Hbs)).
Qed.

Lemma chunk_loop_ascii_step bs fuel pos :
  all_ascii bs -> pos < length bs ->
  chunk_loop (S fuel) bs pos [] =
    ascii_window bs pos :: chunk_loop fuel bs (pos + STEP_SIZE) [].
Proof.
  intros Hbs Hlt. pose proof sizes as (Hc & _ & _).
  rewrite chunk_loop_S. case_decide; [|lia].
  rewrite trim_decode_ascii by (done || lia).
  rewrite chunk_loop_app. simpl. unfold ascii_window.
  replace (pos + (Nat.min (pos + CHUNK_SIZE) (length bs) - pos))
    with (Nat.min (pos + CHUNK_SIZE) (length bs)) by lia.
  done.
Qed.

Lemma chunk_loop_ascii_overlap bs :
  all_ascii bs ->
  forall fuel pos, length bs <= pos + fuel * STEP_SIZE ->
    overlap_exact (chunk_loop fuel bs pos []).
Proof.
  intros Hbs. pose proof sizes as (Hc & Ho & Hs).
  induction fuel as [|fuel IH]; intros pos Hfuel; [by intros i w1 w2 ?|].
  destruct (decide (pos < length bs)) as [Hlt|Hge];
    [|rewrite chunk_loop_done by lia; by intros i w1 w2 ?].
  rewrite chunk_loop_ascii_step by done.
  intros [|i] w1 w2 H1 H2; simpl in H1, H2.
  - simplify_eq.
    destruct fuel as [|fuel]; [done|].
    destruct (decide (pos + STEP_SIZE < length bs)) as [Hlt2|Hge2];
      [|rewrite chunk_loop_done in H2 by lia; done].
    rewrite chunk_loop_ascii_step in H2 |- * by done.
    simpl in H2. simplify_eq.
    unfold ascii_window, chunk_end, chunk_start; simpl.
    destruct (decide (pos + CHUNK_SIZE <= length bs)); [left; lia|right].
    rewrite chunk_loop_done by lia. repeat split; [lia|lia].
  - simpl. apply (IH (pos + STEP_SIZE)); [lia|done..].
Qed.

End Chunker.

(** C4 as amended: a non-empty content of at most [STEP_SIZE] (768) bytes
    gives exactly two chunks, the title chunk and one window that covers the
    whole content.  (Between 769 and 1024 bytes a second window starting at
    byte 768 follows, see [chunk_content_1000_bytes].)  The first hypothesis
    says that [content] is a [str]: its code units are well-formed UTF-8. *)
Theorem chunk_content_within_step (title content : string) :
  Utf8.valid (Utf8.encode content) = true ->
  0 < byte_length content ->
  byte_length content <= STEP_SIZE ->
  chunk_content title content =
    [(title, 0, 0); (content, 0, byte_length content)].
Proof.
  intros Hvalid Hpos Hle. pose proof sizes as (Hc & _ & Hs).
  unfold chunk_content, byte_length in *.
  set (bs := Utf8.encode content) in *.
  destruct (length bs) as [|fuel] eqn:Hlen; [lia|].
  rewrite chunk_loop_S, Hlen. case_decide; [|lia].
  replace (Nat.min (0 + CHUNK_SIZE) (S fuel) - 0) with (S fuel) by lia.
  rewrite trim_decode_S.
  assert (slice bs 0 (0 + S fuel) = bs) as ->.
  { unfold slice. rewrite drop_0, take_ge; [done|lia]. }
  unfold Utf8.decode. rewrite Hvalid.
  rewrite chunk_loop_done by lia.
  subst bs. unfold Utf8.encode. by rewrite string_of_list_ascii_of_string.
Qed.

(** C5 as amended: the windows after the title chunk start at strictly
    increasing offsets, each is non-empty, at most [CHUNK_SIZE] bytes long and
    inside the content, and two consecutive windows share at most
    [OVERLAP_SIZE] bytes.  When every character of the content is one byte
    long the overlap is exactly [OVERLAP_SIZE], unless the second window is
    the last one and shorter than that. *)
Theorem chunk_content_windows (title content : string) :
  exists ws : list Chunk,
    chunk_content title content = (title, 0, 0) :: ws /\
    StronglySorted (fun w1 w2 => chunk_start w1 < chunk_start w2) ws /\
    Forall (fun w => chunk_start w < chunk_end w /\
                     chunk_end w - chunk_start w <= CHUNK_SIZE /\
                     chunk_end w <= byte_length content) ws /\
    (forall i w1 w2, ws !! i = Some w1 -> ws !! S i = Some w2 ->
       chunk_end w1 <= chunk_start w2 + OVERLAP_SIZE) /\
    (all_ascii (Utf8.encode content) -> overlap_exact ws).
Proof.
  pose proof sizes as (Hc & Ho & Hs).
  unfold chunk_content, byte_length.
  set (bs := Utf8.encode content).
  exists (chunk_loop (length bs) bs 0 []).
  destruct (chunk_loop_windows bs (length bs) 0) as [Hok Hsorted].
  split; [by rewrite chunk_loop_app|].
  split; [|split; [|split]].
  - eapply StronglySorted_weaken; [|exact Hsorted].
    intros w1 w2. unfold stepped. lia.
  - eapply Forall_impl; [exact Hok|].
    intros w (? & ? & ? & ? & ?). repeat split; [done|lia|done].
  - intros i w1 w2 H1 H2.
    pose proof (StronglySorted_adjacent _ _ Hsorted i w1 w2 H1 H2) as Hstep.
    rewrite Forall_forall in Hok.
    destruct (Hok w1) as (_ & _ & ? & _); [by eapply list_elem_of_lookup_2|].
    unfold stepped in Hstep. lia.
  - intros Hascii. apply chunk_loop_ascii_overlap; [done|lia].
Qed.

Lemma chunk_content_within_step_witness :
  chunk_content "a" "hello" = [("a", 0, 0); ("hello", 0, 5)]%string.
Proof.
  apply (chunk_content_within_step "a" "hello");
    [reflexivity | vm_compute; lia | vm_compute; lia].
Defined.

(** C4 fails between 769 and 1024 bytes: 1000 bytes of ASCII text fit in one
    window, and the loop still opens a second window at byte 768. *)
Lemma chunk_content_1000_bytes :
  byte_length (repeat_bytes 1000 ["a"%char]) = 1000 /\
  Utf8.valid (Utf8.encode (repeat_bytes 1000 ["a"%char])) = true /\
  chunk_content "t" (repeat_bytes 1000 ["a"%char]) =
    [("t"%string, 0, 0);
     (repeat_bytes 1000 ["a"%char], 0, 1000);
     (repeat_bytes 232 ["a"%char], 768, 1000)].
Proof. vm_compute. repeat split; reflexivity. Qed.

(** C5 fails on multi-byte text: with 700 euro signs (2100 bytes) the first
    window is trimmed to 1023 bytes, so the first two windows, neither of
    which is the last, share 255 bytes and not 256. *)
Lemma chunk_content_euro_overlap :
  Utf8.valid (Utf8.encode (repeat_bytes 700 euro_sign)) = true /\
  spans (chunk_content "t" (repeat_bytes 700 euro_sign)) =
    [(0, 0); (0, 1023); (768, 1791); (1536, 2100)] /\
  1023 - 768 = 255.
Proof. vm_compute. repeat split; reflexivity. Qed.

(** The scenario of the specification: 2000 bytes of ASCII text. *)
Example chunk_content_2000_bytes :
  spans (chunk_content "a" (repeat_bytes 2000 ["x"%char])) =
    [(0, 0); (0, 1024); (768, 1792); (1536, 2000)].
Proof. vm_compute. reflexivity. Qed.

(** A window that starts inside a character never decodes and is left out:
    with 600 times a four-byte character followed by a letter, the windows
    that would start at bytes 768 and 1536 are missing, and bytes 1024 to
    2303 are in no window. *)
Example chunk_content_dropped_windows :
  spans (chunk_content "a" (repeat_bytes 600 (grinning_face ++ ["x"%char]))) =
    [(0, 0); (0, 1024); (2304, 3000)].
Proof. vm_compute. reflexivity. Qed.

(** ** Chunk ids *)

Example chunk_id_12 : chunk_id "notes/a_b.md" 12 = "notes/a_b.md_12"%string.
Proof. reflexivity. Qed.

Section ChunkIds.

Lemma occurs_app_sep c a b : occurs c (a +:+ String c b).
Proof. induction a as [|x a IH]; simpl; auto. Qed.

(** Splitting at a separator that the right-hand parts do not contain is
    unambiguous: it is the split at the last separator. *)
Lemma append_sep_inj c a : forall a' b b',
  ~ occurs c b -> ~ occurs c b' ->
  a +:+ String c b = a' +:+ String c b' -> a = a' /\ b = b'.
Proof.
  induction a as [|x a IH]; intros [|y a'] b b' Hb Hb' Heq; simpl in Heq.
  - by simplify_eq.
  - simplify_eq. destruct Hb. apply occurs_app_sep.
  - simplify_eq. destruct Hb'. apply occurs_app_sep.
  - simplify_eq. destruct (IH a' b b' Hb Hb') as [-> ->]; done.
Qed.

Lemma pretty_N_char_digit x : pretty_N_char x <> "_"%char.
Proof. unfold pretty_N_char. by repeat case_match. Qed.

Lemma pretty_N_go_no_sep x : forall s,
  ~ occurs "_" s -> ~ occurs "_" (pretty_N_go x s).
Proof.
  induction (N.lt_wf_0 x) as [x _ IH]; intros s Hs.
  destruct (decide (x = 0)%N) as [->|Hx]; [by rewrite pretty_N_go_0|].
  rewrite pretty_N_go_step by lia.
  apply IH; [apply N.div_lt; lia|].
  simpl. intros [Hc|Hc]; [by apply pretty_N_char_digit in Hc|done].
Qed.

Lemma pretty_nat_no_sep (i : nat) : ~ occurs "_" (pretty i).
Proof.
  unfold pretty, pretty_nat, pretty, pretty_N.
  case_decide.
  - simpl. intros [Hc|[]]. discriminate Hc.
  - apply pretty_N_go_no_sep. simpl. tauto.
Qed.

Lemma chunk_id_inj d d' i i' :
  chunk_id d i = chunk_id d' i' -> d = d' /\ i = i'.
Proof.
  unfold chunk_id. simpl. intros Heq.
  apply append_sep_inj in Heq as [-> Hp]; try apply pretty_nat_no_sep.
  split; [done|]. by apply (inj pretty).
Qed.

End ChunkIds.

(** C10: the chunk id determines the document and the chunk index, because
    the decimal index after the last underscore contains no underscore. *)
Theorem chunk_id_injective (document_id document_id' : string)
    (chunk_index chunk_index' : nat) :
  chunk_id document_id chunk_index = chunk_id document_id' chunk_index' ->
  document_id = document_id' /\ chunk_index = chunk_index'.
Proof. apply chunk_id_inj. Qed.

Lemma chunk_id_injective_witness :
  "notes/a_1.md"%string = "notes/a_1.md"%string /\ 10 = 10.
Proof.
  apply (chunk_id_injective "notes/a_1.md" "notes/a_1.md" 10 10). reflexivity.
Defined.

(** ** The indexer *)

Ltac sync_unfold :=
  unfold run, index_file, remove_file, remove_file_chunks, try_except,
    collection_add, collection_get, collection_delete, save_metadata,
    call, raise, get_state, put_state, mbind, mret, Sync_bind, Sync_ret in *.

Section IndexerFacts.

(** One call in which nothing raises and the fingerprint differs. *)
Lemma index_file_syncs world filepath rel content hash s :
  markdown filepath ->
  relative_to_vault filepath = Some rel ->
  succeeds world content hash ->
  file_hashes s !! rel <> Some hash ->
  run (index_file world filepath) s =
    {| collection :=
         Collection.add
           (if decide (is_Some (file_hashes s !! rel))
            then without_chunks (collection s) rel else collection s)
           (chunk_records filepath rel (stem filepath) content);
       file_hashes := <[rel := hash]> (file_hashes s);
       metadata_file := Holds (<[rel := hash]> (file_hashes s)) |}.
Proof.
  intros Hmd Hrel (Hread & Hhash & Hget & Hdel & Hadd & Hsave) Hne.
  sync_unfold. rewrite bool_decide_eq_true_2 by done.
  rewrite Hread, Hhash, Hrel, Hget, Hdel, Hadd, Hsave. simpl.
  rewrite decide_False by done.
  destruct (decide (is_Some (file_hashes s !! rel))) as [Hin|Hnot]; simpl.
  - unfold without_chunks.
    destruct (Collection.get_where (collection s) rel) as [|r rs]; simpl.
    + by destruct s.
    + by destruct s.
  - by destruct s.
Qed.

(** The unchanged case: the stored fingerprint is the current one. *)
Lemma index_file_unchanged world filepath rel hash s :
  relative_to_vault filepath = Some rel ->
  calculate_file_hash world = Some hash ->
  file_hashes s !! rel = Some hash ->
  run (index_file world filepath) s = s.
Proof.
  intros Hrel Hhash Hstored. sync_unfold.
  case_bool_decide; [|done].
  destruct (read_text world); simpl; [|done].
  rewrite Hhash, Hrel. simpl. by rewrite decide_True.
Qed.

Lemma set_collection_id s : set_collection (collection s) s = s.
Proof. by destruct s. Qed.

(** [remove_file_chunks] does not raise and never touches the Sync State
    Store. *)
Lemma remove_file_chunks_state world rel s :
  exists c, remove_file_chunks world rel s = (Some tt, set_collection c s).
Proof.
  sync_unfold.
  destruct (get_raises world); simpl;
    [exists (collection s); by rewrite set_collection_id|].
  destruct (Collection.get_where _ _); simpl;
    [exists (collection s); by rewrite set_collection_id|].
  destruct (delete_raises world); simpl;
    [exists (collection s); by rewrite set_collection_id|].
  by eexists.
Qed.

(** A failure before the fingerprint is recorded leaves the store alone:
    at most the collection has changed. *)
Lemma index_file_aborts world filepath s :
  read_text world = None \/ calculate_file_hash world = None \/
  relative_to_vault filepath = None \/ add_raises world = true ->
  exists c, run (index_file world filepath) s = set_collection c s.
Proof.
  intros Hfail. unfold run, index_file.
  assert (exists c, s = set_collection c s) as Hsame
    by (exists (collection s); by rewrite set_collection_id).
  case_bool_decide; [|done].
  unfold try_except, call, mbind, Sync_bind at 1. simpl.
  destruct (read_text world) as [content|]; [|done].
  unfold Sync_bind at 1; simpl.
  destruct (calculate_file_hash world) as [hash|]; [|done].
  unfold Sync_bind at 1; simpl.
  destruct (relative_to_vault filepath) as [rel|]; [|done].
  destruct Hfail as [?|[?|[?|Hadd]]]; [done..|].
  unfold Sync_bind at 1, get_state; simpl.
  case_decide; [done|].
  unfold Sync_bind at 1.
  set (pre := if decide (is_Some (file_hashes s !! rel))
              then remove_file_chunks world rel else mret tt).
  assert (exists c, pre s = (Some tt, set_collection c s)) as [c ->].
  { subst pre. case_decide; [apply remove_file_chunks_state|].
    exists (collection s). by rewrite set_collection_id. }
  unfold Sync_bind at 1, collection_add. rewrite Hadd. simpl. by exists c.
Qed.

End IndexerFacts.

Section CollectionFacts.

Lemma filter_all {A} (P : A -> Prop) `{forall x, Decision (P x)} (l : list A) :
  Forall P l -> filter P l = l.
Proof.
  induction 1 as [|x l Hx _ IH]; [done|].
  by rewrite filter_cons_True, IH.
Qed.

Lemma filter_none {A} (P : A -> Prop) `{forall x, Decision (P x)} (l : list A) :
  Forall (fun x => ~ P x) l -> filter P l = [].
Proof.
  induction 1 as [|x l Hx _ IH]; [done|].
  by rewrite filter_cons_False.
Qed.

Lemma Forall_filter_keep {A} (P Q : A -> Prop) `{forall x, Decision (P x)}
    (l : list A) :
  Forall Q l -> Forall Q (filter P l).
Proof.
  rewrite !Forall_forall. intros HQ x Hx.
  apply list_elem_of_filter in Hx as [_ Hx]. by apply HQ.
Qed.

Lemma chunk_records_of_document filepath rel t content :
  Forall (fun r => of_document rel r /\ canonical_record r)
    (chunk_records filepath rel t content).
Proof.
  apply Forall_lookup. intros i r Hr. unfold chunk_records in Hr.
  rewrite list_lookup_imap in Hr.
  destruct (chunk_content t content !! i) as [[[text b] e]|]; simplify_eq/=.
  done.
Qed.


Lemma canonical_delete c ids : canonical c -> canonical (Collection.delete c ids).
Proof. apply Forall_filter_keep. Qed.

Lemma canonical_without c rel : canonical c -> canonical (without_chunks c rel).
Proof.
  intros Hc. unfold without_chunks.
  destruct (Collection.get_where c rel); [done|by apply canonical_delete].
Qed.

Lemma canonical_add c new :
  canonical c -> Forall canonical_record new -> canonical (Collection.add c new).
Proof.
  intros Hc Hnew. unfold canonical; simpl. apply Forall_app. split; [done|].
  by apply Forall_filter_keep.
Qed.

(** After the delete no record of the document is left. *)
Lemma get_where_without c rel :
  Collection.get_where (without_chunks c rel) rel = [].
Proof.
  unfold without_chunks.
  destruct (Collection.get_where c rel) as [|r rs] eqn:Hget; [done|].
  rewrite <- Hget. unfold Collection.get_where, Collection.delete; simpl.
  apply filter_none, Forall_forall. intros x Hx Hdoc.
  apply list_elem_of_filter in Hx as [Hnot Hx]. apply Hnot.
  apply list_elem_of_fmap_2, list_elem_of_filter. done.
Qed.

(** A record with the id of a chunk of [rel] is a record of [rel]. *)
Lemma canonical_same_id r n rel :
  canonical_record r -> canonical_record n -> of_document rel n ->
  rec_id r = rec_id n -> of_document rel r.
Proof.
  unfold canonical_record, of_document. intros Hr Hn Hdoc Hid.
  rewrite Hr, Hn in Hid. apply chunk_id_inj in Hid as [Hpath _]. congruence.
Qed.

(** Inserting the chunks of a document that has none in the collection:
    all of them are stored, and they are its only records. *)
Lemma get_where_add_fresh c rel new :
  canonical c -> Collection.get_where c rel = [] ->
  Forall (fun r => of_document rel r /\ canonical_record r) new ->
  Collection.get_where (Collection.add c new) rel = new.
Proof.
  intros Hc Hnone Hnew. unfold Collection.get_where, Collection.add; simpl.
  rewrite filter_app. fold (Collection.get_where c rel). rewrite Hnone. simpl.
  rewrite !filter_all; [done| |].
  - apply Forall_forall. intros n Hn Hin.
    rewrite Forall_forall in Hnew. destruct (Hnew n Hn) as [Hdoc Hcan].
    apply list_elem_of_fmap in Hin as (r & Hid & Hr).
    assert (of_document rel r) as Hr'.
    { eapply canonical_same_id; [|exact Hcan|exact Hdoc|done].
      unfold canonical in Hc. rewrite Forall_forall in Hc. by apply Hc. }
    exact (filter_nil_not_elem_of (of_document rel) (records c) r Hnone Hr' Hr).
  - apply Forall_filter_keep. eapply Forall_impl; [exact Hnew|]. by intros ? [? _].
Qed.


End CollectionFacts.

Section SyncFacts.

(** When reading, hashing, inserting and saving go well and the fingerprint
    differs, the new fingerprint is recorded, whatever happened to the
    removal of the old chunks. *)
Lemma index_file_records world filepath rel content hash s :
  markdown filepath ->
  read_text world = Some content ->
  calculate_file_hash world = Some hash ->
  relative_to_vault filepath = Some rel ->
  add_raises world = false ->
  save_io world = SaveCompletes ->
  file_hashes s !! rel <> Some hash ->
  exists c, run (index_file world filepath) s =
    {| collection := c;
       file_hashes := <[rel := hash]> (file_hashes s);
       metadata_file := Holds (<[rel := hash]> (file_hashes s)) |}.
Proof.
  intros Hmd Hread Hhash Hrel Hadd Hsave Hne. unfold run, index_file.
  rewrite bool_decide_eq_true_2 by done.
  unfold try_except, call, mbind, Sync_bind at 1. rewrite Hread. simpl.
  unfold Sync_bind at 1. rewrite Hhash. simpl.
  unfold Sync_bind at 1. rewrite Hrel. simpl.
  unfold Sync_bind at 1, get_state; simpl.
  rewrite decide_False by done.
  unfold Sync_bind at 1.
  set (pre := if decide (is_Some (file_hashes s !! rel))
              then remove_file_chunks world rel else mret tt).
  assert (exists c, pre s = (Some tt, set_collection c s)) as [c ->].
  { subst pre. case_decide; [apply remove_file_chunks_state|].
    exists (collection s). by rewrite set_collection_id. }
  sync_unfold. rewrite Hadd, Hsave. simpl. by eexists.
Qed.

End SyncFacts.

Example indexed_once_ids :
  rec_id <$> records (collection indexed_once) =
    ["notes/a.md_0"; "notes/a.md_1"]%string.
Proof. vm_compute. reflexivity. Qed.

(** C1 as amended: when reading the file, fingerprinting it, resolving its
    relative path or the insert into the Vector Index fails, the call ends
    with [file_hashes] and the metadata file as they were.  A failure while
    the old chunks are removed is caught inside [remove_file_chunks]: the
    sync goes on and, when the insert and the save go well, records the new
    fingerprint. *)
Theorem index_file_failure_handling (world : World) (filepath : FilePath)
    (s : Indexer) :
  let s' := run (index_file world filepath) s in
  (read_text world = None \/ calculate_file_hash world = None \/
   relative_to_vault filepath = None \/ add_raises world = true ->
   file_hashes s' = file_hashes s /\ metadata_file s' = metadata_file s) /\
  (forall content hash rel,
     markdown filepath ->
     read_text world = Some content ->
     calculate_file_hash world = Some hash ->
     relative_to_vault filepath = Some rel ->
     add_raises world = false ->
     save_io world = SaveCompletes ->
     file_hashes s !! rel <> Some hash ->
     file_hashes s' = <[rel := hash]> (file_hashes s) /\
     metadata_file s' = Holds (<[rel := hash]> (file_hashes s))).
Proof.
  simpl. split.
  - intros Hfail. destruct (index_file_aborts world filepath s Hfail) as [c ->].
    done.
  - intros content hash rel Hmd Hread Hhash Hrel Hadd Hsave Hne.
    destruct (index_file_records world filepath rel content hash s) as [c ->];
      done.
Qed.

(** C1 fails when the removal of the old chunks fails: the note is indexed
    with content [x], then changed to [y]; [collection.delete] raises, and
    the call still records the fingerprint [h2], in memory and on disk, while
    the collection keeps the old text. *)
Lemma index_file_failed_delete_recorded :
  let s' := run (index_file (delete_fails "y" "h2") note_path) indexed_once in
  file_hashes indexed_once !! "notes/a.md"%string = Some "h1"%string /\
  file_hashes s' !! "notes/a.md"%string = Some "h2"%string /\
  metadata_file s' = Holds (file_hashes s') /\
  rec_document <$> records (collection s') = ["a"; "x"]%string /\
  batches (collection s') =
    batches (collection indexed_once)
      ++ [InsertBatch ["notes/a.md_0"; "notes/a.md_1"]%string].
Proof. vm_compute. repeat split; reflexivity. Qed.

(** When the insert raises, the call ends with the old fingerprint in place;
    the old chunks are gone by then, and the next call indexes the note anew. *)
Example index_file_failed_add_aborts :
  let s' := run (index_file (add_fails "y" "h2") note_path) indexed_once in
  file_hashes s' = file_hashes indexed_once /\
  metadata_file s' = metadata_file indexed_once /\
  records (collection s') = [].
Proof. vm_compute. repeat split; reflexivity. Qed.

(** C2: a call that finds the stored fingerprint equal to the current hash
    changes nothing: no batch reaches the Vector Index, and [file_hashes] and
    the metadata file stay as they are. *)
Theorem index_file_idempotent (world : World) (filepath : FilePath)
    (rel hash : string) (s : Indexer) :
  relative_to_vault filepath = Some rel ->
  calculate_file_hash world = Some hash ->
  file_hashes s !! rel = Some hash ->
  run (index_file world filepath) s = s.
Proof. apply index_file_unchanged. Qed.

Lemma index_file_idempotent_witness :
  run (index_file (calm "x" "h1") note_path) indexed_once = indexed_once.
Proof.
  apply (index_file_idempotent (calm "x" "h1") note_path "notes/a.md" "h1");
    [reflexivity | reflexivity | vm_compute; reflexivity].
Defined.




(** ** Sorting *)

Section Sorting.

Context {A K : Type} (le : relation K) `{!RelDecision le}.
Context `{!Transitive le} `{!Total le} (key : A -> K).

Lemma insert_by_perm x l : insert_by le key x l ≡ₚ x :: l.
Proof.
induction l as [|y l IH]; simpl; [done|].
case_decide; [done|]. rewrite IH. apply Permutation_swap.
Qed.

Lemma sorted_perm l : sorted le key l ≡ₚ l.
Proof.
induction l as [|x l IH]; simpl; [done|].
by rewrite insert_by_perm, IH.
Qed.

Lemma insert_by_sorted x l :
StronglySorted (by_key le key) l -> StronglySorted (by_key le key) (insert_by le key x l).
Proof.
induction 1 as [|y l Hs IH Hall]; simpl.
- repeat constructor.
- case_decide as Hle.
  + constructor; [by constructor|].
    constructor; [done|].
    eapply Forall_impl; [exact Hall|].
    intros z Hz. unfold by_key in *. by etrans.
  + constructor; [done|].
    rewrite insert_by_perm. constructor; [|done].
    unfold by_key. by destruct (total le (key x) (key y)).
Qed.

Lemma sorted_sorted l : StronglySorted (by_key le key) (sorted le key l).
Proof.
induction l as [|x l IH]; simpl; [constructor|].
by apply insert_by_sorted.
Qed.

End Sorting.

Lemma StronglySorted_take {A} (R : relation A) (l : list A) n :
  StronglySorted R l -> StronglySorted R (take n l).
Proof.
  intros Hs. revert n. induction Hs as [|x l Hs IH Hall]; intros [|n]; simpl;
    try constructor; [apply IH|].
  by apply Forall_take.
Qed.

Global Instance Qle_transitive : Transitive Qle.
Proof. intros x y z. apply Qle_trans. Qed.

Global Instance Qle_total : Total Qle.
Proof.
  intros x y. destruct (Qlt_le_dec x y) as [Hlt|Hle]; [left|by right].
  by apply Qlt_le_weak.
Qed.

(** The chunk with index 0 comes first, the others follow in index order. *)
Lemma insert_by_zero {A} (key : A -> nat) x l :
  key x = 0 -> insert_by le key x l = x :: l.
Proof.
  intros Hx. destruct l as [|y l]; simpl; [done|].
  rewrite decide_True; [done|]. rewrite Hx. apply Nat.le_0_l.
Qed.

Lemma sorted_title_first {A} (key : A -> nat) (l : list A) :
  length (filter (fun r => key r = 0) l) = 1 ->
  exists first,
    key first = 0 /\
    sorted le key l = first :: sorted le key (filter (fun r => key r <> 0) l).
Proof.
  induction l as [|x l IH]; [done|].
  rewrite filter_cons. destruct (decide (key x = 0)) as [Hx|Hx]; simpl.
  - intros Hlen. exists x. split; [done|].
    rewrite insert_by_zero by done. f_equal.
    rewrite filter_cons_False by (intros Hne; by apply Hne).
    rewrite (filter_all (fun r => key r <> 0)); [done|].
    apply Forall_forall. intros y Hy Hzero.
    assert (y ∈ filter (fun r => key r = 0) l) as Hin
      by (by apply list_elem_of_filter).
    destruct (filter (fun r => key r = 0) l); [by apply not_elem_of_nil in Hin|done].
  - intros Hlen. destruct (IH Hlen) as (first & Hfirst & Hsorted).
    exists first. split; [done|].
    rewrite filter_cons_True by done. simpl. rewrite Hsorted. simpl.
    rewrite decide_False; [done|]. rewrite Hfirst. lia.
Qed.

(** ** The scores of the files *)

Section ScoreFacts.

Lemma scores_get_set_eq k v d : scores_get k (scores_set k v d) = Some v.
Proof.
induction d as [|[k' v'] d IH]; simpl.
- by rewrite decide_True.
- destruct (decide (k = k')) as [->|Hne]; simpl.
  + by rewrite decide_True.
  + by rewrite decide_False.
Qed.

Lemma scores_get_set_ne k k' v d :
k <> k' -> scores_get k' (scores_set k v d) = scores_get k' d.
Proof.
intros Hne. induction d as [|[k0 v0] d IH]; simpl.
- rewrite decide_False; [done|congruence].
- destruct (decide (k = k0)) as [->|Hne0]; simpl.
  + rewrite !decide_False; [done|congruence|congruence].
  + destruct (decide (k' = k0)); [done|apply IH].
Qed.

Lemma scores_set_keys k v d :
is_Some (scores_get k d) -> (scores_set k v d).*1 = d.*1.
Proof.
induction d as [|[k' v'] d IH]; simpl; [by intros [? ?]|].
destruct (decide (k = k')) as [->|Hne]; simpl; [done|].
intros Hsome. f_equal. by apply IH.
Qed.

Lemma scores_set_keys_new k v d :
scores_get k d = None -> (scores_set k v d).*1 = d.*1 ++ [k].
Proof.
induction d as [|[k' v'] d IH]; simpl; [done|].
destruct (decide (k = k')) as [->|Hne]; simpl; [done|].
intros Hnone. f_equal. by apply IH.
Qed.

Lemma scores_get_None k d : scores_get k d = None -> k ∉ d.*1.
Proof.
induction d as [|[k' v'] d IH]; simpl; [intros _; apply not_elem_of_nil|].
destruct (decide (k = k')) as [->|Hne]; [done|].
intros Hnone. apply not_elem_of_cons. split; [done|by apply IH].
Qed.

Lemma scores_get_elem k v d :
NoDup d.*1 -> (k, v) ∈ d -> scores_get k d = Some v.
Proof.
induction d as [|[k' v'] d IH]; simpl; [by intros _ ?%not_elem_of_nil|].
intros [Hnot Hnd]%NoDup_cons [Heq|Hin]%elem_of_cons.
- simplify_eq. by rewrite decide_True.
- rewrite decide_False; [by apply IH|].
  intros ->. apply Hnot. apply list_elem_of_fmap. by exists (k', v).
Qed.

Lemma best_distance_other seen h path d :
file_path (hit_metadata h) <> path ->
best_distance seen path d -> best_distance (seen ++ [h]) path d.
Proof.
intros Hne [(h0 & Hin & Hpath & Hd) Hmin]. split.
- exists h0. split; [|done]. apply elem_of_app. by left.
- intros h' [Hin'|Hin']%elem_of_app Hp; [by apply Hmin|].
  apply list_elem_of_singleton in Hin'. by subst.
Qed.

Lemma score_hit_scores_of seen file_scores h :
scores_of seen file_scores -> scores_of (seen ++ [h]) (score_hit file_scores h).
Proof.
intros (Hnd & Hbest & Hnone). unfold score_hit.
set (p := file_path (hit_metadata h)). set (d := hit_distance h).
assert (forall best, (forall h', h' ∈ seen -> file_path (hit_metadata h') = p ->
                        (best <= hit_distance h')%Q) ->
          (best <= d)%Q -> forall h', h' ∈ seen ++ [h] ->
          file_path (hit_metadata h') = p -> (best <= hit_distance h')%Q) as Hext.
{ intros best Hmin Hle h' [Hin|Hin]%elem_of_app Hp; [by apply Hmin|].
  apply list_elem_of_singleton in Hin. by subst. }
assert (h ∈ seen ++ [h]) as Hh by (apply elem_of_app; right; by left).
assert (forall path best, p <> path -> best_distance seen path best ->
          best_distance (seen ++ [h]) path best) as Hother
  by (intros; by apply best_distance_other).
assert (forall path, p <> path ->
          (forall h', h' ∈ seen -> file_path (hit_metadata h') <> path) ->
          forall h', h' ∈ seen ++ [h] -> file_path (hit_metadata h') <> path) as Hnone'.
{ intros path Hne Hall h' [Hin|Hin]%elem_of_app; [by apply Hall|].
  apply list_elem_of_singleton in Hin. by subst. }
assert ((forall best, scores_get p file_scores = Some best -> (d <= best)%Q) ->
        scores_of (seen ++ [h]) (scores_set p d file_scores)) as Hset.
{ intros Hle. split; [|split].
  - destruct (scores_get p file_scores) as [best|] eqn:Hget.
    + rewrite scores_set_keys; [done|by rewrite Hget].
    + rewrite scores_set_keys_new by done.
      apply NoDup_app. split; [done|]. split; [|apply NoDup_singleton].
      intros k Hk ->%list_elem_of_singleton.
      by apply scores_get_None in Hget.
  - intros path best. destruct (decide (p = path)) as [<-|Hne].
    + rewrite scores_get_set_eq. intros [= <-]. split; [by exists h|].
      destruct (scores_get p file_scores) as [best|] eqn:Hget.
      * apply Hext; [|apply Qle_refl].
        intros h' Hin Hp. destruct (Hbest p best Hget) as [_ Hmin].
        eapply Qle_trans; [by apply Hle|by apply Hmin].
      * intros h' [Hin|Hin]%elem_of_app Hp; [by destruct (Hnone p Hget h' Hin)|].
        apply list_elem_of_singleton in Hin. subst. apply Qle_refl.
    + rewrite scores_get_set_ne by done. intros Hget. by apply Hother, Hbest.
  - intros path. destruct (decide (p = path)) as [<-|Hne].
    + by rewrite scores_get_set_eq.
    + rewrite scores_get_set_ne by done. intros Hget. by apply Hnone', Hnone. }
destruct (scores_get p file_scores) as [best|] eqn:Hget.
- case_decide as Hlt.
  + apply Hset. intros ? [= <-]. by apply Qlt_le_weak.
  + apply Qnot_lt_le in Hlt. split; [done|split].
    * intros path best'. destruct (decide (p = path)) as [<-|Hne].
      -- rewrite Hget. intros [= <-].
         destruct (Hbest p best Hget) as [(h0 & Hin & Hp & Hd) Hmin]. split.
         ++ exists h0. split; [|done]. apply elem_of_app. by left.
         ++ by apply Hext.
      -- intros Hget'. by apply Hother, Hbest.
    * intros path Hget'. apply Hnone'; [|by apply Hnone]. congruence.
- apply Hset. done.
Qed.

Lemma fold_score_hit hits : forall seen file_scores,
scores_of seen file_scores ->
scores_of (seen ++ hits) (fold_left score_hit hits file_scores).
Proof.
induction hits as [|h hits IH]; intros seen file_scores Hinv; simpl.
- by rewrite app_nil_r.
- rewrite (assoc_L (++) seen [h] hits : seen ++ h :: hits = (seen ++ [h]) ++ hits).
  apply IH. by apply score_hit_scores_of.
Qed.

Lemma collect_scores_best hits : scores_of hits (collect_scores hits).
Proof.
apply (fold_score_hit hits [] []). split; [constructor|]. split; [done|].
intros path _ h Hh. by apply not_elem_of_nil in Hh.
Qed.

End ScoreFacts.

(** ** The reconstruction *)

Section ReconstructFacts.

Lemma StronglySorted_sublist {A} (R : relation A) (k l : list A) :
k `sublist_of` l -> StronglySorted R l -> StronglySorted R k.
Proof.
induction 1 as [|x k l Hsub IH|x k l Hsub IH]; intros Hs.
- constructor.
- apply StronglySorted_inv in Hs as [Hs Hall]. constructor; [by apply IH|].
  apply Forall_forall. intros y Hy. rewrite Forall_forall in Hall.
  apply Hall. by eapply sublist_subseteq.
- apply StronglySorted_inv in Hs as [Hs _]. by apply IH.
Qed.

Lemma Forall2_StronglySorted {A B} (P : A -> B -> Prop) (R : relation B)
  (R' : relation A) (l : list A) (k : list B) :
(forall a1 b1 a2 b2, P a1 b1 -> P a2 b2 -> R b1 b2 -> R' a1 a2) ->
Forall2 P l k -> StronglySorted R k -> StronglySorted R' l.
Proof.
intros HR. induction 1 as [|a b l k Hab Hlk IH]; intros Hs; [constructor|].
apply StronglySorted_inv in Hs as [Hs Hall]. constructor; [by apply IH|].
clear IH Hs. induction Hlk as [|a' b' l k Hab' _ IH]; [constructor|].
apply Forall_cons in Hall as [Hbb' Hall]. constructor; [by eapply HR|by apply IH].
Qed.

Lemma slice_to_take {A} (limit : Z) (l : list A) :
exists m, slice_to limit l = take m l /\ ((0 <= limit)%Z -> m = Z.to_nat limit).
Proof.
unfold slice_to. case_decide; eexists; (split; [done|]); [done|lia].
Qed.

(** What the loop body makes of one entry of [sorted_files]. *)
Lemma reconstruct_article store path best a :
reconstruct store (path, best) = Some (Some a) ->
exists chunks first rest,
  get store path = Some chunks /\ chunks <> [] /\
  sorted le chunk_order chunks = first :: rest /\
  a = {| article_file_path := path;
         article_title := title (rec_metadata first);
         article_full_path := full_path (rec_metadata first);
         article_content := String.concat EmptyString (rec_document <$> rest);
         article_relevance_score := 1 - best |}.
Proof.
unfold reconstruct. destruct (get store path) as [chunks|]; [simpl|done].
destruct chunks as [|c chunks]; [done|].
destruct (sorted le chunk_order (c :: chunks)) as [|first rest] eqn:Hsorted;
  [done|]. simpl.
intros Heq. simplify_eq. by exists (c :: chunks), first, rest.
Qed.

Lemma reconstruct_all_rebuilt store es : forall acc out,
reconstruct_all store es acc = Some out ->
exists arts, out = acc ++ arts /\ rebuilt store es arts.
Proof.
induction es as [|e es IH]; intros acc out; simpl.
- intros [= <-]. exists []. by rewrite app_nil_r; split; [|constructor].
- destruct (reconstruct store e) as [[a|]|] eqn:He; simpl; [| |done].
  + intros Hrest. destruct (IH _ _ Hrest) as (arts & -> & Hre).
    exists (a :: arts). split; [by rewrite <- app_assoc|by constructor].
  + intros Hrest. destruct (IH _ _ Hrest) as (arts & -> & Hre).
    exists arts. split; [done|by apply rebuilt_skip].
Qed.

Lemma rebuilt_kept store es arts :
rebuilt store es arts ->
exists kept, kept `sublist_of` es /\
  Forall2 (fun e a => reconstruct store e = Some (Some a)) kept arts.
Proof.
induction 1 as [|e es arts He _ (kept & Hsub & Hall)
                |e es a arts He _ (kept & Hsub & Hall)].
- exists []. split; constructor.
- exists kept. split; [by apply sublist_cons|done].
- exists (e :: kept). split; [by apply sublist_skip|by constructor].
Qed.

(** A [get] that raises makes the whole loop raise. *)
Lemma reconstruct_all_raises store es : forall acc,
(exists e, e ∈ es /\ get store e.1 = None) ->
reconstruct_all store es acc = None.
Proof.
induction es as [|e es IH]; intros acc (e' & Hin & Hget).
- by apply not_elem_of_nil in Hin.
- simpl. apply elem_of_cons in Hin as [->|Hin].
  + destruct e as [path best]. simpl in *. by rewrite Hget.
  + destruct (reconstruct store e) as [[a|]|]; simpl; [| |done];
      apply IH; by exists e'.
Qed.

Lemma Qminus_antitone (d1 d2 : Q) : (d1 <= d2 -> 1 - d2 <= 1 - d1)%Q.
Proof.
intros Hle. unfold Qminus. apply Qplus_le_r. by apply Qopp_le_compat.
Qed.

(** The entries [search_full] reconstructs, with what the ranking gives
  them. *)
Lemma sorted_files_ranked (hits : list Hit) (limit : Z) :
let sorted_files := slice_to limit (sorted Qle snd (collect_scores hits)) in
NoDup sorted_files.*1 /\
StronglySorted (by_key Qle snd) sorted_files /\
Forall (fun e => best_distance hits e.1 e.2) sorted_files /\
((0 <= limit)%Z -> length sorted_files <= Z.to_nat limit).
Proof.
simpl. set (file_scores := collect_scores hits).
destruct (collect_scores_best hits) as (Hnd & Hbest & _). fold file_scores in Hnd, Hbest.
destruct (slice_to_take limit (sorted Qle snd file_scores)) as (m & -> & Hm).
pose proof (sorted_perm Qle snd file_scores) as Hperm.
pose proof (sublist_take (sorted Qle snd file_scores) m) as Hsub.
split; [|split; [|split]].
- eapply sublist_NoDup; [|by apply fmap_sublist]. by rewrite Hperm.
- apply StronglySorted_take, sorted_sorted; apply _.
- apply Forall_forall. intros [path d] Hin. simpl.
  apply Hbest, scores_get_elem; [done|].
  rewrite <- Hperm. by eapply sublist_subseteq.
- intros Hlimit. rewrite length_take, (Hm Hlimit). lia.
Qed.

End ReconstructFacts.

(** ** The search *)

Section SearchFacts.

Lemma search_full_kept store q limit :
exists kept,
  kept `sublist_of`
    slice_to limit (sorted Qle snd (collect_scores (matches store q limit))) /\
  Forall2 (fun e a => reconstruct store e = Some (Some a)) kept
    (search_full store q limit).
Proof.
unfold search_full, matches.
destruct (query store q (limit * 3)%Z) as [[|h hits]|]; simpl;
  try (exists []; split; [apply sublist_nil_l|constructor]).
destruct (reconstruct_all store _ []) as [out|] eqn:Hall; simpl;
  [|exists []; split; [apply sublist_nil_l|constructor]].
apply reconstruct_all_rebuilt in Hall as (arts & -> & Hre).
by apply rebuilt_kept.
Qed.

Lemma kept_articles store hits kept arts :
Forall2 (fun e a => reconstruct store e = Some (Some a)) kept arts ->
Forall (fun e => best_distance hits e.1 e.2) kept ->
article_file_path <$> arts = kept.*1 /\
Forall2 (fun a d => best_distance hits (article_file_path a) d /\
                    article_relevance_score a = (1 - d)%Q) arts kept.*2.
Proof.
induction 1 as [|[path best] a kept arts He _ IH]; intros Hbest; [by split|].
apply Forall_cons in Hbest as [Hb Hbest]. destruct (IH Hbest) as [Hpaths Hall].
apply reconstruct_article in He as (chunks & first & rest & _ & _ & _ & ->).
split; [rewrite !fmap_cons; simpl; by f_equal|].
rewrite fmap_cons. constructor; [done|done].
Qed.

End SearchFacts.

Example search_full_sample :
  (fun a => (article_file_path a, article_content a)) <$> search_full sample_store "q" 2 =
    [("b", "B1"); ("a", "A1A2")]%string.
Proof. vm_compute. reflexivity. Qed.

(** C6 as amended: for a limit that is not negative, [search_full] returns
    at most [limit] articles, their file paths are pairwise distinct, and
    they come by falling relevance score, that is by rising best distance of
    the document among the matches. *)
Theorem search_full_ranked (store : Store) (q : string) (limit : Z) :
  (0 <= limit)%Z ->
  let results := search_full store q limit in
  let hits := matches store q limit in
  (Z.of_nat (length results) <= limit)%Z /\
  NoDup (article_file_path <$> results) /\
  StronglySorted
    (fun a b => (article_relevance_score b <= article_relevance_score a)%Q)
    results /\
  exists distances,
    Forall2 (fun a d => best_distance hits (article_file_path a) d /\
                        article_relevance_score a = (1 - d)%Q)
      results distances /\
    StronglySorted Qle distances.
Proof.
  intros Hlimit. simpl.
  destruct (search_full_kept store q limit) as (kept & Hsub & Hall).
  destruct (sorted_files_ranked (matches store q limit) limit)
    as (Hnd & Hsorted & Hbest & Hlen).
  assert (Forall (fun e => best_distance (matches store q limit) e.1 e.2) kept)
    as Hbest'.
  { apply Forall_forall. intros e He. rewrite Forall_forall in Hbest.
    apply Hbest. by eapply sublist_subseteq. }
  destruct (kept_articles store _ kept _ Hall Hbest') as [Hpaths Hscores].
  assert (StronglySorted Qle kept.*2) as Hds.
  { eapply (StronglySorted_fmap snd (by_key Qle snd)); [by intros ? ?|].
    by eapply StronglySorted_sublist. }
  split; [|split; [|split]].
  - apply Forall2_length in Hall. apply sublist_length in Hsub.
    pose proof (Nat.le_trans _ _ _ Hsub (Hlen Hlimit)) as Hle.
    rewrite <- Hall. apply Nat2Z.inj_le in Hle.
    rewrite Z2Nat.id in Hle by done. exact Hle.
  - rewrite Hpaths. eapply sublist_NoDup; [exact Hnd|by apply fmap_sublist].
  - eapply Forall2_StronglySorted; [|exact Hscores|exact Hds].
    intros a1 d1 a2 d2 [_ ->] [_ ->]. apply Qminus_antitone.
  - by exists kept.*2.
Qed.

Lemma search_full_ranked_witness :
  (Z.of_nat (length (search_full sample_store "q" 2)) <= 2)%Z.
Proof.
  refine (proj1 (search_full_ranked sample_store "q" 2 _)). lia.
Defined.

(** C6 fails for a negative limit: no list has at most [-1] elements.  The
    store that refuses the request makes [search_full] return the empty list;
    the store that answers it makes the slice [[:-1]] drop the last document
    only. *)
Lemma search_full_negative_limit :
  search_full strict_store "q" (-1) = [] /\
  (-1 < Z.of_nat (length (search_full strict_store "q" (-1))))%Z /\
  article_file_path <$> search_full sample_store "q" (-1) = ["b"; "a"]%string /\
  (-1 < Z.of_nat (length (search_full sample_store "q" (-1))))%Z.
Proof. vm_compute. repeat split; reflexivity. Qed.

(** C7: when the records of every document hold its title chunk, the one
    chunk with index 0, the content of a returned article is the
    concatenation of the texts of all other chunks of the document in index
    order, nothing removed where they overlap, and its relevance score is 1
    minus the least distance among the matches of the document. *)
Theorem search_full_content (store : Store) (q : string) (limit : Z)
    (a : Article) :
  (forall path chunks, get store path = Some chunks -> chunks <> [] ->
     titled chunks) ->
  a ∈ search_full store q limit ->
  exists chunks d,
    get store (article_file_path a) = Some chunks /\
    article_content a =
      String.concat EmptyString
        (rec_document <$>
           sorted le chunk_order (filter (fun r => chunk_order r <> 0) chunks)) /\
    best_distance (matches store q limit) (article_file_path a) d /\
    article_relevance_score a = (1 - d)%Q.
Proof.
  intros Htitled Hin.
  destruct (search_full_kept store q limit) as (kept & Hsub & Hall).
  destruct (sorted_files_ranked (matches store q limit) limit)
    as (_ & _ & Hbest & _).
  apply list_elem_of_lookup in Hin as [i Hi].
  destruct (Forall2_lookup_r _ _ _ _ _ Hall Hi) as ([path best] & Hk & He).
  assert (best_distance (matches store q limit) path best) as Hb.
  { rewrite Forall_forall in Hbest. apply (Hbest (path, best)).
    eapply sublist_subseteq; [exact Hsub|]. by eapply list_elem_of_lookup_2. }
  apply reconstruct_article in He
    as (chunks & first & rest & Hget & Hne & Hsorted & ->). simpl.
  exists chunks, best. split; [done|]. split; [|by split].
  destruct (sorted_title_first chunk_order chunks (Htitled _ _ Hget Hne))
    as (first' & _ & Heq).
  rewrite Hsorted in Heq. by simplify_eq.
Qed.

Lemma search_full_content_witness :
  exists chunks d,
    get sample_store "a" = Some chunks /\
    "A1A2"%string =
      String.concat EmptyString
        (rec_document <$>
           sorted le chunk_order (filter (fun r => chunk_order r <> 0) chunks)) /\
    best_distance (matches sample_store "q" 2) "a" d /\
    (8 # 10 = 1 - d)%Q.
Proof.
  apply (search_full_content sample_store "q" 2 sample_article).
  - intros path chunks. simpl. unfold sample_get.
    repeat case_decide; intros Hget Hne; simplify_eq; [reflexivity..|done].
  - vm_compute. right. left.
Defined.

(** C8: when the similarity query raises or returns no match, both searches
    return the empty list; so does [search_full] when a [get] for one of the
    selected documents raises.  Nothing is raised to the caller: both are
    total functions into lists. *)
Theorem search_degrades_to_empty (store : Store) (q : string) (limit : Z) :
  (query store q limit = None \/ query store q limit = Some [] ->
   search_snippets store q limit = []) /\
  (query store q (limit * 3)%Z = None \/ query store q (limit * 3)%Z = Some [] ->
   search_full store q limit = []) /\
  ((exists e, e ∈ slice_to limit (sorted Qle snd (collect_scores (matches store q limit)))
      /\ get store e.1 = None) ->
   search_full store q limit = []).
Proof.
  split; [|split].
  - unfold search_snippets. by intros [-> | ->].
  - unfold search_full. by intros [-> | ->].
  - unfold search_full, matches.
    destruct (query store q (limit * 3)%Z) as [[|h hits]|]; simpl; [done| |done].
    intros Hraise. by rewrite reconstruct_all_raises.
Qed.

(** ** The metadata file on disk *)

Section PersistFacts.











End PersistFacts.



(** ** The title chunk is always there *)

Section WellKept.

Lemma canonical_elem c r : canonical c -> r ∈ records c -> canonical_record r.
Proof. unfold canonical. rewrite Forall_forall. auto. Qed.

Lemma canonical_title_id r rel :
canonical_record r -> rec_id r = chunk_id rel 0 ->
of_document rel r /\ chunk_order r = 0.
Proof.
unfold canonical_record, of_document, chunk_order. intros Hr Hid.
rewrite Hr in Hid. by apply chunk_id_inj in Hid.
Qed.

Lemma NoDup_constant {A B} `{EqDecision B} (f : A -> B) (v : B) (l : list A) :
NoDup (f <$> l) -> Forall (fun x => f x = v) l -> length l <= 1.
Proof.
destruct l as [|x [|y l]]; simpl; [lia|lia|].
intros Hnd Hall. exfalso.
apply Forall_cons in Hall as [Hx Hall]. apply Forall_cons in Hall as [Hy _].
apply NoDup_cons in Hnd as [Hnot _]. apply Hnot. rewrite Hx, <- Hy. left.
Qed.

(** A well-kept collection gives [search_full] what C7 asks for. *)
Lemma well_kept_titled c path :
well_kept c -> Collection.get_where c path <> [] ->
titled (Collection.get_where c path).
Proof.
intros (Hcan & Hnd & Htitle) Hne. unfold titled.
set (F := filter (fun r => chunk_order r = 0) (Collection.get_where c path)).
assert (length F <= 1) as Hle.
{ apply (NoDup_constant rec_id (chunk_id path 0)).
  - eapply sublist_NoDup; [exact Hnd|]. apply fmap_sublist.
    etrans; apply sublist_filter.
  - apply Forall_forall. intros r Hr.
    apply list_elem_of_filter in Hr as [Hzero Hr].
    apply list_elem_of_filter in Hr as [Hdoc Hr].
    rewrite (canonical_elem c r Hcan Hr).
    unfold of_document, chunk_order in *. by rewrite Hdoc, Hzero. }
assert (0 < length F) as Hpos.
{ destruct (Collection.get_where c path) as [|r rs] eqn:Hget; [done|].
  assert (r ∈ Collection.get_where c path) as Hr by (rewrite Hget; left).
  apply list_elem_of_filter in Hr as [Hdoc Hr].
  destruct (Htitle r Hr) as (r0 & Hr0 & Hdoc0 & Hzero).
  assert (r0 ∈ F) as Hin.
  { apply list_elem_of_filter. split; [done|]. rewrite <- Hget.
    apply list_elem_of_filter. split; [|done].
    unfold of_document in *. congruence. }
  destruct F; [by apply not_elem_of_nil in Hin|simpl; lia]. }
lia.
Qed.

Lemma well_kept_without c rel : well_kept c -> well_kept (without_chunks c rel).
Proof.
intros (Hcan & Hnd & Htitle). unfold without_chunks.
destruct (Collection.get_where c rel) as [|x xs] eqn:Hget; [done|].
rewrite <- Hget. split; [by apply canonical_delete|]. split.
- simpl. eapply sublist_NoDup; [exact Hnd|]. apply fmap_sublist, sublist_filter.
- intros r Hr. simpl in Hr. apply list_elem_of_filter in Hr as [Hid Hr].
  destruct (Htitle r Hr) as (r0 & Hr0 & Hdoc0 & Hzero).
  exists r0. split; [|done]. simpl. apply list_elem_of_filter. split; [|done].
  intros Hin. apply list_elem_of_fmap in Hin as (r' & Hid' & Hr').
  apply list_elem_of_filter in Hr' as [Hdoc' Hr'].
  assert (of_document rel r0) as Hrel.
  { eapply canonical_same_id;
      [by eapply canonical_elem|by eapply (canonical_elem c r')|exact Hdoc'|done]. }
  apply Hid. apply list_elem_of_fmap_2, list_elem_of_filter. split; [|done].
  unfold of_document in *. congruence.
Qed.

Lemma chunk_records_ids filepath rel t content :
NoDup (rec_id <$> chunk_records filepath rel t content).
Proof.
apply NoDup_alt. intros i j id Hi Hj. unfold chunk_records in *.
rewrite list_lookup_fmap in Hi. rewrite list_lookup_fmap in Hj.
rewrite list_lookup_imap in Hi. rewrite list_lookup_imap in Hj.
destruct (chunk_content t content !! i) as [[[? ?] ?]|]; [|done].
destruct (chunk_content t content !! j) as [[[? ?] ?]|]; [|done].
simpl in Hi, Hj. injection Hi as <-. injection Hj as Hj.
by apply chunk_id_inj in Hj as [_ ?].
Qed.

Lemma chunk_records_head filepath rel t content :
exists r0 rs, chunk_records filepath rel t content = r0 :: rs /\
  rec_id r0 = chunk_id rel 0 /\ of_document rel r0 /\ chunk_order r0 = 0.
Proof.
unfold chunk_records, chunk_content. rewrite chunk_loop_app. simpl.
by eexists _, _.
Qed.

Lemma well_kept_add c filepath rel t content :
well_kept c ->
well_kept (Collection.add c (chunk_records filepath rel t content)).
Proof.
intros (Hcan & Hnd & Htitle).
pose proof (chunk_records_of_document filepath rel t content) as Hnew.
set (new := chunk_records filepath rel t content) in *.
split; [|split].
- apply canonical_add; [done|]. eapply Forall_impl; [exact Hnew|]. by intros ? [_ ?].
- simpl. rewrite fmap_app. apply NoDup_app. split; [done|]. split.
  + intros id Hid Hin. apply list_elem_of_fmap in Hin as (n & -> & Hn).
    by apply list_elem_of_filter in Hn as [Hnot _].
  + eapply sublist_NoDup; [apply chunk_records_ids|].
    apply fmap_sublist, sublist_filter.
- intros r Hr. simpl in Hr. apply elem_of_app in Hr as [Hr|Hr].
  + destruct (Htitle r Hr) as (r0 & Hr0 & Hdoc0 & Hzero).
    exists r0. split; [|done]. simpl. apply elem_of_app. by left.
  + apply list_elem_of_filter in Hr as [_ Hr].
    rewrite Forall_forall in Hnew. destruct (Hnew r Hr) as [Hdoc _].
    unfold of_document in Hdoc. rewrite Hdoc.
    destruct (chunk_records_head filepath rel t content)
      as (n0 & ns & Hn0 & Hid0 & Hdoc0 & Hzero0). fold new in Hn0.
    destruct (decide (rec_id n0 ∈ rec_id <$> records c)) as [Hin|Hnot].
    * apply list_elem_of_fmap in Hin as (r' & Hid' & Hr').
      destruct (canonical_title_id r' rel) as [Hdoc' Hzero'];
        [by eapply canonical_elem|congruence|].
      exists r'. split; [|done]. simpl. apply elem_of_app. by left.
    * exists n0. split; [|done]. simpl. apply elem_of_app. right.
      apply list_elem_of_filter. split; [done|]. rewrite Hn0. left.
Qed.

(** The collection after [remove_file_chunks]. *)
Lemma remove_file_chunks_collection world rel s :
exists c,
  (c = collection s \/ c = without_chunks (collection s) rel) /\
  remove_file_chunks world rel s = (Some tt, set_collection c s).
Proof.
sync_unfold.
destruct (get_raises world); simpl;
  [exists (collection s); split; [by left|by rewrite set_collection_id]|].
unfold without_chunks.
destruct (Collection.get_where (collection s) rel) as [|r rs]; simpl;
  [exists (collection s); split; [by left|by rewrite set_collection_id]|].
destruct (delete_raises world); simpl;
  [exists (collection s); split; [by left|by rewrite set_collection_id]|].
eexists. split; [by right|done].
Qed.

(** Whatever raises, [index_file] keeps the collection well kept. *)
Lemma index_file_well_kept world filepath s :
well_kept (collection s) ->
well_kept (collection (run (index_file world filepath) s)).
Proof.
intros Hwk. unfold run, index_file.
case_bool_decide; [|done].
unfold try_except, call, mbind, Sync_bind at 1. simpl.
destruct (read_text world) as [content|]; [|done].
unfold Sync_bind at 1; simpl.
destruct (calculate_file_hash world) as [hash|]; [|done].
unfold Sync_bind at 1; simpl.
destruct (relative_to_vault filepath) as [rel|]; [|done].
unfold Sync_bind at 1, get_state; simpl.
case_decide; [done|].
unfold Sync_bind at 1.
set (pre := if decide (is_Some (file_hashes s !! rel))
            then remove_file_chunks world rel else mret tt).
assert (exists c, well_kept c /\ pre s = (Some tt, set_collection c s))
  as (c & Hc & ->).
{ subst pre. case_decide.
  - destruct (remove_file_chunks_collection world rel s) as (c & Hc & Heq).
    exists c. split; [|done].
    destruct Hc as [-> | ->]; [done|by apply well_kept_without].
  - exists (collection s). split; [done|]. by rewrite set_collection_id. }
sync_unfold. destruct (add_raises world); simpl; [done|].
destruct (save_io world); simpl; by apply well_kept_add.
Qed.

(** So does [remove_file]. *)
Lemma remove_file_well_kept world filepath s :
well_kept (collection s) ->
well_kept (collection (run (remove_file world filepath) s)).
Proof.
intros Hwk. unfold run, remove_file.
unfold try_except, call, mbind, Sync_bind at 1. simpl.
destruct (relative_to_vault filepath) as [rel|]; [|done].
unfold Sync_bind at 1.
destruct (remove_file_chunks_collection world rel s) as (c & Hc & ->).
assert (well_kept c) as Hwk'
  by (destruct Hc as [-> | ->]; [done|by apply well_kept_without]).
sync_unfold. simpl. case_decide; simpl; [|done].
destruct (save_io world); simpl; done.
Qed.

Lemma well_kept_empty : well_kept {| records := []; batches := [] |}.
Proof.
split; [constructor|]. split; [constructor|].
intros r Hr. by apply not_elem_of_nil in Hr.
Qed.

End WellKept.

Lemma store_of_titled c answers path chunks :
  well_kept c ->
  get (store_of c answers) path = Some chunks -> chunks <> [] -> titled chunks.
Proof.
  intros Hwk [= <-] Hne. by apply well_kept_titled.
Qed.

(** * Part IV: more of the code *)

(** ** More on the chunker *)

Section ChunkerMore.

Lemma windows_loop title content :
  windows title content =
    chunk_loop (length (Utf8.encode content)) (Utf8.encode content) 0 [].
Proof. unfold windows, chunk_content. by rewrite chunk_loop_app. Qed.

Lemma chunk_loop_starts bs : forall fuel pos,
  Forall (fun w => exists k, chunk_start w = pos + k * STEP_SIZE)
    (chunk_loop fuel bs pos []).
Proof.
  pose proof sizes as (_ & _ & Hs).
  induction fuel as [|fuel IH]; intros pos; [constructor|].
  rewrite chunk_loop_S. case_decide; [|constructor].
  assert (Forall (fun w => exists k, chunk_start w = pos + k * STEP_SIZE)
            (chunk_loop fuel bs (pos + STEP_SIZE) [])) as Hrest.
  { eapply Forall_impl; [apply IH|]. intros w [k Hk]. exists (S k).
    rewrite Hk, Hs. lia. }
  destruct (trim_decode _ _ _) as [[text e]|]; [|done].
  rewrite chunk_loop_app. simpl. constructor; [|done]. exists 0. unfold chunk_start. simpl. lia.
Qed.

Lemma decode_Some bs text :
  Utf8.decode bs = Some text ->
  Utf8.valid bs = true /\ Utf8.encode text = bs.
Proof.
  unfold Utf8.decode, Utf8.encode. destruct (Utf8.valid bs); [|done].
  intros [= <-]. by rewrite list_ascii_of_string_of_list_ascii.
Qed.

End ChunkerMore.

(** X1: every content window starts at a multiple of [STEP_SIZE], and its
    text is exactly the bytes of the content between its two offsets, which
    are well-formed UTF-8. *)
Theorem chunk_content_window_text (title content : string) (w : Chunk) :
  w ∈ windows title content ->
  (exists k, chunk_start w = k * STEP_SIZE) /\
  Utf8.encode (chunk_text w) =
    slice (Utf8.encode content) (chunk_start w) (chunk_end w) /\
  Utf8.valid (Utf8.encode (chunk_text w)) = true.
Proof.
  rewrite windows_loop. intros Hw.
  set (bs := Utf8.encode content) in *.
  destruct (chunk_loop_windows bs (length bs) 0) as [Hok _].
  pose proof (chunk_loop_starts bs (length bs) 0) as Hstarts.
  rewrite Forall_forall in Hok, Hstarts.
  destruct (Hok w Hw) as (_ & _ & _ & _ & Hdec).
  destruct (Hstarts w Hw) as [k Hk].
  apply decode_Some in Hdec as [Hvalid Henc].
  split; [by exists k|]. split; [done|]. by rewrite Henc.
Qed.

Lemma chunk_content_window_text_witness :
  (exists k, 768 = k * STEP_SIZE) /\
  Utf8.encode (repeat_bytes 232 ["a"%char]) =
    slice (Utf8.encode (repeat_bytes 1000 ["a"%char])) 768 1000 /\
  Utf8.valid (Utf8.encode (repeat_bytes 232 ["a"%char])) = true.
Proof.
  apply (chunk_content_window_text "t" (repeat_bytes 1000 ["a"%char])
           (repeat_bytes 232 ["a"%char], 768, 1000)).
  vm_compute. right. left.
Defined.

Section AsciiWindows.

Lemma window_count_pos n :
  0 < n -> window_count n = S ((n - 1) / STEP_SIZE).
Proof.
  intros Hn. pose proof sizes as (_ & _ & Hs). unfold window_count. rewrite Hs.
  replace (n + 768 - 1) with ((n - 1) + 1 * 768) by lia.
  rewrite Nat.div_add by lia. lia.
Qed.

Lemma window_count_0 : window_count 0 = 0.
Proof. reflexivity. Qed.

Lemma window_count_step n :
  0 < n -> window_count n = S (window_count (n - STEP_SIZE)).
Proof.
  intros Hn. pose proof sizes as (_ & _ & Hs).
  rewrite window_count_pos by done. f_equal.
  destruct (decide (n <= STEP_SIZE)) as [Hle|Hgt].
  - replace (n - STEP_SIZE) with 0 by lia. rewrite window_count_0.
    apply Nat.div_small. lia.
  - rewrite window_count_pos by lia. rewrite Hs.
    replace (n - 1) with ((n - 768 - 1) + 1 * 768) by lia.
    rewrite Nat.div_add by lia. lia.
Qed.

(** With one-byte characters only, the loop gives one untrimmed window per
    step. *)
Lemma chunk_loop_ascii_closed bs :
  all_ascii bs ->
  forall fuel pos, length bs <= pos + fuel * STEP_SIZE ->
    chunk_loop fuel bs pos [] =
      (fun j => ascii_window bs (pos + j * STEP_SIZE))
        <$> seq 0 (window_count (length bs - pos)).
Proof.
  intros Hbs. pose proof sizes as (_ & _ & Hs).
  induction fuel as [|fuel IH]; intros pos Hfuel.
  - replace (length bs - pos) with 0 by lia. by rewrite window_count_0.
  - destruct (decide (pos < length bs)) as [Hlt|Hge].
    + rewrite chunk_loop_ascii_step by done.
      rewrite window_count_step by lia. rewrite IH by lia.
      replace (length bs - pos - STEP_SIZE) with (length bs - (pos + STEP_SIZE))
        by lia.
      cbn [seq fmap list_fmap].
      replace (pos + 0 * STEP_SIZE) with pos by lia. f_equal.
      rewrite <- fmap_S_seq, <- list_fmap_compose.
      apply list_fmap_ext. intros _ j _. simpl. f_equal. lia.
    + rewrite chunk_loop_done by lia.
      replace (length bs - pos) with 0 by lia. by rewrite window_count_0.
Qed.

Lemma windows_ascii title content :
  all_ascii (Utf8.encode content) ->
  windows title content =
    (fun j => ascii_window (Utf8.encode content) (j * STEP_SIZE))
      <$> seq 0 (window_count (byte_length content)).
Proof.
  intros Hbs. pose proof sizes as (_ & _ & Hs). rewrite windows_loop.
  rewrite chunk_loop_ascii_closed; [|done|rewrite Hs; lia].
  unfold byte_length. rewrite Nat.sub_0_r. done.
Qed.

End AsciiWindows.

(** X2: for a content of one-byte characters only, the result is the title
    chunk followed by one window per step: window number [j] runs from byte
    [768 j] to byte [min (768 j + 1024) L], and there are [ceil (L / 768)] of
    them. *)
Theorem chunk_content_ascii (title content : string) :
  all_ascii (Utf8.encode content) ->
  chunk_content title content =
    (title, 0, 0) ::
    ((fun j => ascii_window (Utf8.encode content) (j * STEP_SIZE))
       <$> seq 0 (window_count (byte_length content))).
Proof.
  intros Hbs. rewrite <- (windows_ascii title) by done.
  unfold windows, chunk_content. by rewrite chunk_loop_app.
Qed.

Lemma chunk_content_ascii_witness :
  chunk_content "t" "hello" =
    ("t"%string, 0, 0) ::
    ((fun j => ascii_window (Utf8.encode "hello") (j * STEP_SIZE))
       <$> seq 0 (window_count (byte_length "hello"))).
Proof.
  apply (chunk_content_ascii "t" "hello"). repeat constructor.
Defined.

(** X3: for a content of one-byte characters only, no byte is lost: every
    byte offset of the content lies in some window. *)
Theorem chunk_content_ascii_covers (title content : string) (i : nat) :
  all_ascii (Utf8.encode content) ->
  i < byte_length content ->
  exists w, w ∈ windows title content /\ chunk_start w <= i < chunk_end w.
Proof.
  intros Hbs Hi. pose proof sizes as (Hc & _ & Hs).
  rewrite windows_ascii by done.
  exists (ascii_window (Utf8.encode content) (i / STEP_SIZE * STEP_SIZE)). split.
  - apply (list_elem_of_fmap_2
             (fun j => ascii_window (Utf8.encode content) (j * STEP_SIZE))).
    apply elem_of_seq. split; [lia|].
    rewrite window_count_pos by lia. simpl.
    apply Nat.lt_succ_r, Nat.Div0.div_le_mono. lia.
  - unfold ascii_window, chunk_start, chunk_end, byte_length in *. simpl.
    rewrite Hs, Hc.
    pose proof (Nat.Div0.mul_div_le i 768).
    pose proof (Nat.mul_succ_div_gt i 768). lia.
Qed.

Lemma chunk_content_ascii_covers_witness :
  exists w, w ∈ windows "t" "hello" /\ chunk_start w <= 3 < chunk_end w.
Proof.
  apply (chunk_content_ascii_covers "t" "hello" 3);
    [repeat constructor | vm_compute; lia].
Defined.

(** ** Trimming well-formed text *)

Section Trimming.

Lemma valid_cons_1 b r :
  Utf8.is_ascii b = true -> Utf8.valid (b :: r) = Utf8.valid r.
Proof. intros Hb. cbn [Utf8.valid]. by rewrite Hb. Qed.

Lemma valid_cons_2 b0 b1 r :
  Utf8.is_ascii b0 = false -> Utf8.in_range 0xC2 0xDF b0 = true ->
  Utf8.valid (b0 :: b1 :: r) = Utf8.is_cont b1 && Utf8.valid r.
Proof. intros H0 H1. cbn [Utf8.valid]. by rewrite H0, H1. Qed.

Lemma valid_cons_3 b0 b1 b2 r :
  Utf8.is_ascii b0 = false -> Utf8.in_range 0xC2 0xDF b0 = false ->
  Utf8.in_range 0xE0 0xEF b0 = true ->
  Utf8.valid (b0 :: b1 :: b2 :: r) =
    Utf8.second_of_3 b0 b1 && Utf8.is_cont b2 && Utf8.valid r.
Proof. intros H0 H1 H2. cbn [Utf8.valid]. by rewrite H0, H1, H2. Qed.

Lemma valid_cons_4 b0 b1 b2 b3 r :
  Utf8.is_ascii b0 = false -> Utf8.in_range 0xC2 0xDF b0 = false ->
  Utf8.in_range 0xE0 0xEF b0 = false -> Utf8.in_range 0xF0 0xF4 b0 = true ->
  Utf8.valid (b0 :: b1 :: b2 :: b3 :: r) =
    Utf8.second_of_4 b0 b1 && Utf8.is_cont b2 && Utf8.is_cont b3 && Utf8.valid r.
Proof. intros H0 H1 H2 H3. cbn [Utf8.valid]. by rewrite H0, H1, H2, H3. Qed.

(** Cutting well-formed text anywhere and stepping back over at most three
    bytes gives well-formed text again. *)
Lemma valid_take_trim : forall n l,
  length l <= n -> Utf8.valid l = true ->
  forall m, exists k, k <= 3 /\ k <= m /\ Utf8.valid (take (m - k) l) = true.
Proof.
  assert (forall (l : list ascii) j, j <= 3 ->
            exists k, k <= 3 /\ k <= j /\ Utf8.valid (take (j - k) l) = true) as Hshort.
  { intros l j Hj. exists j. rewrite Nat.sub_diag, take_0. by repeat split. }
  induction n as [|n IH]; intros l Hlen Hvalid m.
  { destruct l; [|simpl in Hlen; lia]. exists 0. rewrite take_nil. repeat split; lia. }
  destruct l as [|b0 r0]; [exists 0; rewrite take_nil; repeat split; lia|].
  simpl in Hlen.
  destruct (Utf8.is_ascii b0) eqn:H0.
  { rewrite valid_cons_1 in Hvalid by done.
    destruct m as [|m]; [apply Hshort; lia|].
    destruct (IH r0 ltac:(lia) Hvalid m) as (k & Hk3 & Hkm & Hv).
    exists k. split; [done|]. split; [lia|].
    replace (S m - k) with (S (m - k)) by lia. cbn [firstn].
    by rewrite valid_cons_1. }
  destruct (Utf8.in_range 0xC2 0xDF b0) eqn:H1.
  { destruct r0 as [|b1 r1]; [cbn [Utf8.valid] in Hvalid; by rewrite H0, H1 in Hvalid|].
    rewrite valid_cons_2 in Hvalid by done.
    apply andb_true_iff in Hvalid as [Hc1 Hvalid]. simpl in Hlen.
    destruct m as [|[|m]]; [apply Hshort; lia..|].
    destruct (IH r1 ltac:(lia) Hvalid m) as (k & Hk3 & Hkm & Hv).
    exists k. split; [done|]. split; [lia|].
    replace (S (S m) - k) with (S (S (m - k))) by lia. cbn [firstn].
    rewrite valid_cons_2 by done. by rewrite Hc1, Hv. }
  destruct (Utf8.in_range 0xE0 0xEF b0) eqn:H2.
  { destruct r0 as [|b1 [|b2 r2]];
      try (cbn [Utf8.valid] in Hvalid; by rewrite H0, H1, H2 in Hvalid).
    rewrite valid_cons_3 in Hvalid by done.
    apply andb_true_iff in Hvalid as [Hc Hvalid].
    apply andb_true_iff in Hc as [Hc1 Hc2]. simpl in Hlen.
    destruct m as [|[|[|m]]]; [apply Hshort; lia..|].
    destruct (IH r2 ltac:(lia) Hvalid m) as (k & Hk3 & Hkm & Hv).
    exists k. split; [done|]. split; [lia|].
    replace (S (S (S m)) - k) with (S (S (S (m - k)))) by lia. cbn [firstn].
    rewrite valid_cons_3 by done. by rewrite Hc1, Hc2, Hv. }
  destruct (Utf8.in_range 0xF0 0xF4 b0) eqn:H3.
  { destruct r0 as [|b1 [|b2 [|b3 r3]]];
      try (cbn [Utf8.valid] in Hvalid; by rewrite H0, H1, H2, H3 in Hvalid).
    rewrite valid_cons_4 in Hvalid by done.
    apply andb_true_iff in Hvalid as [Hc Hvalid].
    apply andb_true_iff in Hc as [Hc Hc3].
    apply andb_true_iff in Hc as [Hc1 Hc2]. simpl in Hlen.
    destruct m as [|[|[|[|m]]]]; [apply Hshort; lia..|].
    destruct (IH r3 ltac:(lia) Hvalid m) as (k & Hk3 & Hkm & Hv).
    exists k. split; [done|]. split; [lia|].
    replace (S (S (S (S m))) - k) with (S (S (S (S (m - k))))) by lia. cbn [firstn].
    rewrite valid_cons_4 by done. by rewrite Hc1, Hc2, Hc3, Hv. }
  cbn [Utf8.valid] in Hvalid. by rewrite H0, H1, H2, H3 in Hvalid.
Qed.

(** The inner loop stops at the longest slice that decodes. *)
Lemma trim_decode_finds bs pos : forall n m,
  0 < m -> m <= n -> Utf8.valid (slice bs pos (pos + m)) = true ->
  exists text e, trim_decode bs pos n = Some (text, e) /\ pos + m <= e.
Proof.
  induction n as [|n IH]; intros m Hm Hmn Hvalid; [lia|].
  rewrite trim_decode_S. unfold Utf8.decode.
  destruct (Utf8.valid (slice bs pos (pos + S n))) eqn:Hn.
  - eexists _, _. split; [done|lia].
  - destruct (decide (m = S n)) as [->|Hne]; [congruence|].
    apply (IH m); [done|lia|done].
Qed.

(** The window of every round of the loop is kept when its slice decodes. *)
Lemma chunk_loop_at bs : forall j fuel pos text e,
  length bs <= pos + fuel * STEP_SIZE ->
  pos + j * STEP_SIZE < length bs ->
  trim_decode bs (pos + j * STEP_SIZE)
    (Nat.min (pos + j * STEP_SIZE + CHUNK_SIZE) (length bs) - (pos + j * STEP_SIZE))
    = Some (text, e) ->
  (text, pos + j * STEP_SIZE, e) ∈ chunk_loop fuel bs pos [].
Proof.
  pose proof sizes as (_ & _ & Hs).
  induction j as [|j IH]; intros fuel pos text e Hfuel Hlt Htrim.
  - rewrite Nat.mul_0_l, Nat.add_0_r in *.
    destruct fuel as [|fuel]; [lia|].
    rewrite chunk_loop_S. rewrite decide_True by done. rewrite Htrim.
    rewrite chunk_loop_app. left.
  - destruct fuel as [|fuel]; [rewrite Hs in *; lia|].
    rewrite chunk_loop_S. rewrite decide_True by (rewrite Hs in *; lia).
    replace (pos + S j * STEP_SIZE) with (pos + STEP_SIZE + j * STEP_SIZE) in *
      by (rewrite Hs; lia).
    rewrite chunk_loop_app. apply elem_of_app. right.
    apply IH; [rewrite Hs in *; lia|done|done].
Qed.

(** A window that starts on a character boundary is kept, and loses at most
    three bytes at its end. *)
Lemma boundary_window title content k :
  boundary (Utf8.encode content) (k * STEP_SIZE) ->
  k * STEP_SIZE < byte_length content ->
  exists w, w ∈ windows title content /\
    chunk_start w = k * STEP_SIZE /\
    chunk_end w <= Nat.min (k * STEP_SIZE + CHUNK_SIZE) (byte_length content) /\
    Nat.min (k * STEP_SIZE + CHUNK_SIZE) (byte_length content) <= chunk_end w + 3.
Proof.
  unfold boundary, byte_length. intros Hvalid Hlt.
  pose proof sizes as (Hc & _ & Hs).
  set (bs := Utf8.encode content) in *. set (pos := k * STEP_SIZE) in *.
  set (n := Nat.min (pos + CHUNK_SIZE) (length bs) - pos).
  assert (0 < n) as Hn by (subst n; lia).
  assert (exists m, 0 < m /\ m <= n /\ n <= m + 3 /\
            Utf8.valid (slice bs pos (pos + m)) = true) as (m & Hm & Hmn & Hm3 & Hv).
  { destruct (valid_take_trim (length (drop pos bs)) (drop pos bs) (reflexivity _)
                Hvalid n) as (k' & Hk3 & Hkn & Hv).
    destruct (decide (n <= 3)) as [Hsmall|Hbig].
    - exists n. split; [done|]. split; [done|]. split; [lia|].
      unfold slice. replace (pos + n - pos) with n by lia.
      rewrite take_ge; [done|]. rewrite length_drop. subst n. lia.
    - exists (n - k'). split; [lia|]. split; [lia|]. split; [lia|].
      unfold slice. by replace (pos + (n - k') - pos) with (n - k') by lia. }
  destruct (trim_decode_finds bs pos n m Hm Hmn Hv) as (text & e & Htrim & He).
  pose proof (trim_decode_Some _ _ _ _ _ Htrim) as (_ & He' & _).
  exists (text, pos, e). split.
  - rewrite windows_loop. fold bs.
    replace pos with (0 + k * STEP_SIZE) by (subst pos; lia).
    apply chunk_loop_at; [rewrite Hs; lia|subst pos; lia|].
    replace (0 + k * STEP_SIZE) with pos by (subst pos; lia). exact Htrim.
  - unfold chunk_start, chunk_end. simpl. subst n. lia.
Qed.

End Trimming.

(** X4: when a window of the loop starts on a character boundary of
    well-formed text, it is in the result, and trimming has taken at most three
    bytes from its end. *)
Theorem chunk_content_boundary_window (title content : string) (k : nat) :
  boundary (Utf8.encode content) (k * STEP_SIZE) ->
  k * STEP_SIZE < byte_length content ->
  exists w, w ∈ windows title content /\
    chunk_start w = k * STEP_SIZE /\
    chunk_end w <= Nat.min (k * STEP_SIZE + CHUNK_SIZE) (byte_length content) /\
    Nat.min (k * STEP_SIZE + CHUNK_SIZE) (byte_length content) <= chunk_end w + 3.
Proof. apply boundary_window. Qed.

Lemma chunk_content_boundary_window_witness :
  exists w, w ∈ windows "t" (repeat_bytes 700 euro_sign) /\
    chunk_start w = 1 * STEP_SIZE /\
    chunk_end w <=
      Nat.min (1 * STEP_SIZE + CHUNK_SIZE) (byte_length (repeat_bytes 700 euro_sign)) /\
    Nat.min (1 * STEP_SIZE + CHUNK_SIZE) (byte_length (repeat_bytes 700 euro_sign))
      <= chunk_end w + 3.
Proof.
  apply (chunk_content_boundary_window "t" (repeat_bytes 700 euro_sign) 1);
    [vm_compute; reflexivity | vm_compute; lia].
Defined.

(** X5: for well-formed text, the result holds the title chunk alone exactly
    when the content is empty. *)
Theorem chunk_content_only_title (title content : string) :
  Utf8.valid (Utf8.encode content) = true ->
  chunk_content title content = [(title, 0, 0)] <-> content = EmptyString.
Proof.
  intros Hvalid. split.
  - intros Hone. destruct content as [|c content]; [done|]. exfalso.
    destruct (boundary_window title (String c content) 0) as (w & Hw & _).
    + unfold boundary. by rewrite Nat.mul_0_l, drop_0.
    + unfold byte_length. simpl. lia.
    + unfold windows in Hw. rewrite Hone in Hw. by apply not_elem_of_nil in Hw.
  - by intros ->.
Qed.

Lemma chunk_content_only_title_witness :
  chunk_content "t" EmptyString = [("t"%string, 0, 0)] <-> EmptyString = EmptyString.
Proof. apply (chunk_content_only_title "t" EmptyString). reflexivity. Defined.

(** ** More on the indexer *)

Section IndexerRuns.

Lemma remove_file_chunks_run world rel s :
  remove_file_chunks world rel s =
    (Some tt, set_collection (removal world (collection s) rel) s).
Proof.
  sync_unfold. unfold removal, without_chunks.
  destruct (get_raises world); simpl; [by rewrite set_collection_id|].
  destruct (Collection.get_where (collection s) rel) as [|r rs]; simpl.
  - destruct (delete_raises world); by rewrite set_collection_id.
  - destruct (delete_raises world); simpl; [by rewrite set_collection_id|done].
Qed.

(** What a call that gets past the fingerprint check does, in every world. *)
Lemma index_file_run world filepath rel content hash s :
  markdown filepath ->
  read_text world = Some content ->
  calculate_file_hash world = Some hash ->
  relative_to_vault filepath = Some rel ->
  file_hashes s !! rel <> Some hash ->
  run (index_file world filepath) s =
    let c1 := if decide (is_Some (file_hashes s !! rel))
              then removal world (collection s) rel else collection s in
    if add_raises world then set_collection c1 s
    else {| collection :=
              Collection.add c1 (chunk_records filepath rel (stem filepath) content);
            file_hashes := <[rel := hash]> (file_hashes s);
            metadata_file :=
              saved_as world (<[rel := hash]> (file_hashes s)) (metadata_file s) |}.
Proof.
  intros Hmd Hread Hhash Hrel Hne. unfold run, index_file.
  rewrite bool_decide_eq_true_2 by done.
  unfold try_except, call, mbind, Sync_bind at 1. rewrite Hread. simpl.
  unfold Sync_bind at 1. rewrite Hhash. simpl.
  unfold Sync_bind at 1. rewrite Hrel. simpl.
  unfold Sync_bind at 1, get_state; simpl.
  rewrite decide_False by done.
  unfold Sync_bind at 1.
  set (c1 := if decide (is_Some (file_hashes s !! rel))
             then removal world (collection s) rel else collection s).
  assert ((if decide (is_Some (file_hashes s !! rel))
           then remove_file_chunks world rel else mret tt) s
          = (Some tt, set_collection c1 s)) as ->.
  { subst c1. case_decide; [apply remove_file_chunks_run|].
    by rewrite set_collection_id. }
  sync_unfold. unfold saved_as.
  destruct (add_raises world); simpl; [done|].
  destruct (save_io world); simpl; done.
Qed.

(** A call either changes nothing or gets past the fingerprint check. *)
Lemma index_file_cases world filepath s :
  run (index_file world filepath) s = s \/
  exists rel content hash,
    markdown filepath /\ read_text world = Some content /\
    calculate_file_hash world = Some hash /\
    relative_to_vault filepath = Some rel /\
    file_hashes s !! rel <> Some hash.
Proof.
  destruct (decide (markdown filepath)) as [Hmd|Hmd];
    [|left; unfold run, index_file; by rewrite bool_decide_eq_false_2].
  destruct (read_text world) as [content|] eqn:Hread.
  2:{ left. unfold run, index_file. rewrite bool_decide_eq_true_2 by done.
      sync_unfold. by rewrite Hread. }
  destruct (calculate_file_hash world) as [hash|] eqn:Hhash.
  2:{ left. unfold run, index_file. rewrite bool_decide_eq_true_2 by done.
      sync_unfold. rewrite Hread, Hhash. done. }
  destruct (relative_to_vault filepath) as [rel|] eqn:Hrel.
  2:{ left. unfold run, index_file. rewrite bool_decide_eq_true_2 by done.
      sync_unfold. rewrite Hread, Hhash, Hrel. done. }
  destruct (decide (file_hashes s !! rel = Some hash)) as [Heq|Hne].
  - left. by eapply index_file_unchanged.
  - right. by exists rel, content, hash.
Qed.

(** [remove_file], in every world. *)
Lemma remove_file_run world filepath rel s :
  relative_to_vault filepath = Some rel ->
  run (remove_file world filepath) s =
    let c1 := removal world (collection s) rel in
    if decide (is_Some (file_hashes s !! rel)) then
      {| collection := c1;
         file_hashes := delete rel (file_hashes s);
         metadata_file :=
           saved_as world (delete rel (file_hashes s)) (metadata_file s) |}
    else set_collection c1 s.
Proof.
  intros Hrel. unfold run, remove_file.
  unfold try_except, call, mbind, Sync_bind at 1. rewrite Hrel. simpl.
  unfold Sync_bind at 1. rewrite remove_file_chunks_run.
  sync_unfold. simpl. unfold saved_as.
  case_decide; simpl; [|done].
  destruct (save_io world); simpl; done.
Qed.

Lemma remove_file_no_path world filepath s :
  relative_to_vault filepath = None -> run (remove_file world filepath) s = s.
Proof. intros Hrel. unfold run, remove_file. sync_unfold. by rewrite Hrel. Qed.

Lemma filter_filter_keep {A} (P Q : A -> Prop)
    `{forall x, Decision (P x)} `{forall x, Decision (Q x)} (l : list A) :
  (forall x, x ∈ l -> P x -> Q x) -> filter P (filter Q l) = filter P l.
Proof.
  induction l as [|x l IH]; intros HPQ; [done|].
  assert (filter P (filter Q l) = filter P l) as IH'
    by (apply IH; intros y Hy; apply HPQ; by right).
  rewrite (filter_cons Q). destruct (decide (Q x)) as [HQ|HQ].
  - rewrite !(filter_cons P). by rewrite IH'.
  - rewrite (filter_cons_False P x l); [done|].
    intros HP. apply HQ, HPQ; [left|done].
Qed.

(** Removing the chunks of one document leaves the others alone. *)
Lemma get_where_without_other c rel p :
  canonical c -> p <> rel ->
  Collection.get_where (without_chunks c rel) p = Collection.get_where c p.
Proof.
  intros Hcan Hne. unfold without_chunks.
  destruct (Collection.get_where c rel) as [|x xs] eqn:Hget; [done|].
  rewrite <- Hget. unfold Collection.get_where, Collection.delete; simpl.
  apply filter_filter_keep. intros r Hr Hp Hin.
  apply list_elem_of_fmap in Hin as (r' & Hid & Hr').
  apply list_elem_of_filter in Hr' as [Hrel Hr'].
  assert (of_document rel r) as Hrel'.
  { eapply canonical_same_id; [by eapply canonical_elem|
      by eapply (canonical_elem c r')|exact Hrel|done]. }
  unfold of_document in *. congruence.
Qed.

Lemma get_where_removal_other world c rel p :
  canonical c -> p <> rel ->
  Collection.get_where (removal world c rel) p = Collection.get_where c p.
Proof.
  intros Hcan Hne. unfold removal.
  destruct (get_raises world || delete_raises world); [done|].
  by apply get_where_without_other.
Qed.

Lemma get_where_add_other c new rel p :
  p <> rel -> Forall (of_document rel) new ->
  Collection.get_where (Collection.add c new) p = Collection.get_where c p.
Proof.
  intros Hne Hnew. unfold Collection.get_where, Collection.add; simpl.
  rewrite filter_app.
  rewrite (filter_none (of_document p) (filter _ new)); [by rewrite app_nil_r|].
  apply Forall_forall. intros r Hr Hp.
  apply list_elem_of_filter in Hr as [_ Hr].
  rewrite Forall_forall in Hnew. specialize (Hnew r Hr).
  unfold of_document in *. congruence.
Qed.

Lemma chunk_records_all_of filepath rel t content :
  Forall (of_document rel) (chunk_records filepath rel t content).
Proof.
  eapply Forall_impl; [apply chunk_records_of_document|]. by intros r [? _].
Qed.

Lemma canonical_removal world c rel : canonical c -> canonical (removal world c rel).
Proof.
  intros Hc. unfold removal.
  destruct (get_raises world || delete_raises world); [done|].
  by apply canonical_without.
Qed.

(** What one call leaves alone: the records and the fingerprint of every
    other document. *)
Lemma index_file_frame world filepath s p :
  canonical (collection s) ->
  relative_to_vault filepath <> Some p ->
  Collection.get_where (collection (run (index_file world filepath) s)) p =
    Collection.get_where (collection s) p /\
  file_hashes (run (index_file world filepath) s) !! p = file_hashes s !! p.
Proof.
  intros Hcan Hp.
  destruct (index_file_cases world filepath s)
    as [-> | (rel & content & hash & Hmd & Hread & Hhash & Hrel & Hne)]; [done|].
  assert (p <> rel) as Hprel by congruence.
  rewrite (index_file_run world filepath rel content hash s) by done. simpl.
  set (c1 := if decide (is_Some (file_hashes s !! rel))
             then removal world (collection s) rel else collection s).
  assert (Collection.get_where c1 p = Collection.get_where (collection s) p) as Hc1.
  { subst c1. case_decide; [by apply get_where_removal_other|done]. }
  destruct (add_raises world); simpl; [done|].
  split.
  - rewrite (get_where_add_other _ _ rel); [done|done|apply chunk_records_all_of].
  - by rewrite lookup_insert_ne.
Qed.

Lemma index_file_canonical world filepath s :
  canonical (collection s) ->
  canonical (collection (run (index_file world filepath) s)).
Proof.
  intros Hcan.
  destruct (index_file_cases world filepath s)
    as [-> | (rel & content & hash & Hmd & Hread & Hhash & Hrel & Hne)]; [done|].
  rewrite (index_file_run world filepath rel content hash s) by done. simpl.
  set (c1 := if decide (is_Some (file_hashes s !! rel))
             then removal world (collection s) rel else collection s).
  assert (canonical c1) as Hc1
    by (subst c1; case_decide; [by apply canonical_removal|done]).
  destruct (add_raises world); simpl; [done|].
  apply canonical_add; [done|].
  eapply Forall_impl; [apply chunk_records_of_document|]. by intros r [_ ?].
Qed.

Lemma index_file_keeps_entries world filepath s p :
  is_Some (file_hashes s !! p) ->
  is_Some (file_hashes (run (index_file world filepath) s) !! p).
Proof.
  intros Hp.
  destruct (index_file_cases world filepath s)
    as [-> | (rel & content & hash & Hmd & Hread & Hhash & Hrel & Hne)]; [done|].
  rewrite (index_file_run world filepath rel content hash s) by done. simpl.
  destruct (add_raises world); simpl; [done|].
  destruct (decide (rel = p)) as [->|Hrp].
  - rewrite lookup_insert_eq. eauto.
  - by rewrite lookup_insert_ne.
Qed.

Lemma index_file_in_sync world filepath s :
  save_io world = SaveCompletes -> in_sync s ->
  in_sync (run (index_file world filepath) s).
Proof.
  intros Hsave Hsync.
  destruct (index_file_cases world filepath s)
    as [-> | (rel & content & hash & Hmd & Hread & Hhash & Hrel & Hne)]; [done|].
  rewrite (index_file_run world filepath rel content hash s) by done. simpl.
  destruct (add_raises world); simpl; [done|].
  unfold in_sync, saved_as. simpl. by rewrite Hsave.
Qed.

Lemma remove_file_in_sync world filepath s :
  save_io world = SaveCompletes -> in_sync s ->
  in_sync (run (remove_file world filepath) s).
Proof.
  intros Hsave Hsync.
  destruct (relative_to_vault filepath) as [rel|] eqn:Hrel;
    [|by rewrite remove_file_no_path].
  rewrite (remove_file_run world filepath rel s) by done. simpl.
  case_decide; [|done]. unfold in_sync, saved_as. simpl. by rewrite Hsave.
Qed.

End IndexerRuns.

(** X6: the records [index_file] builds for one document have pairwise
    distinct ids, and their chunk indices are 0, 1, 2, ... in order, one per
    chunk. *)
Theorem chunk_records_layout (filepath : FilePath) (rel t content : string) :
  NoDup (rec_id <$> chunk_records filepath rel t content) /\
  chunk_order <$> chunk_records filepath rel t content =
    seq 0 (length (chunk_content t content)) /\
  rec_id <$> chunk_records filepath rel t content =
    chunk_id rel <$> seq 0 (length (chunk_content t content)).
Proof.
  split; [apply chunk_records_ids|].
  unfold chunk_records. split.
  - apply list_eq. intros i.
    rewrite list_lookup_fmap, list_lookup_imap.
    destruct (chunk_content t content !! i) as [[[text b] e]|] eqn:Hi; simpl.
    + symmetry. apply lookup_seq. split; [done|]. by eapply lookup_lt_Some.
    + symmetry. apply lookup_seq_ge. by apply lookup_ge_None.
  - apply list_eq. intros i.
    rewrite !list_lookup_fmap, list_lookup_imap.
    destruct (chunk_content t content !! i) as [[[text b] e]|] eqn:Hi; simpl.
    + rewrite lookup_seq_lt by (by eapply lookup_lt_Some). done.
    + rewrite lookup_seq_ge by (by apply lookup_ge_None). done.
Qed.

Lemma indexed_twice_well_kept : well_kept (collection indexed_twice).
Proof. apply index_file_well_kept, index_file_well_kept, well_kept_empty. Qed.

(** X7: in every world, [index_file] keeps the collection well kept: ids
    are the ones built from path and index, no id occurs twice, and every
    document with records has its title chunk. *)
Theorem index_file_invariant (world : World) (filepath : FilePath) (s : Indexer) :
  well_kept (collection s) ->
  well_kept (collection (run (index_file world filepath) s)).
Proof. apply index_file_well_kept. Qed.

Lemma index_file_invariant_witness :
  length (records (collection indexed_twice)) = 4 /\
  length (records (collection
            (run (index_file (add_fails "y" "h2") note_path) indexed_twice))) = 2 /\
  well_kept (collection indexed_twice) /\
  well_kept (collection
    (run (index_file (add_fails "y" "h2") note_path) indexed_twice)).
Proof.
  split; [reflexivity|]. split; [reflexivity|].
  split; [apply indexed_twice_well_kept|].
  apply (index_file_invariant (add_fails "y" "h2") note_path indexed_twice).
  apply indexed_twice_well_kept.
Defined.

(** X8: so does [remove_file]. *)
Theorem remove_file_invariant (world : World) (filepath : FilePath) (s : Indexer) :
  well_kept (collection s) ->
  well_kept (collection (run (remove_file world filepath) s)).
Proof. apply remove_file_well_kept. Qed.

Lemma remove_file_invariant_witness :
  length (records (collection indexed_twice)) = 4 /\
  length (records (collection
            (run (remove_file (calm "x" "h1") note_path) indexed_twice))) = 2 /\
  well_kept (collection indexed_twice) /\
  well_kept (collection
    (run (remove_file (calm "x" "h1") note_path) indexed_twice)).
Proof.
  split; [reflexivity|]. split; [reflexivity|].
  split; [apply indexed_twice_well_kept|].
  apply (remove_file_invariant (calm "x" "h1") note_path indexed_twice).
  apply indexed_twice_well_kept.
Defined.

(** X9: in every world, a call of [index_file] for one document leaves the
    stored records and the fingerprint of every other document as they
    were. *)
Theorem index_file_other_documents (world : World) (filepath : FilePath)
    (s : Indexer) (path : string) :
  canonical (collection s) ->
  relative_to_vault filepath <> Some path ->
  Collection.get_where (collection (run (index_file world filepath) s)) path =
    Collection.get_where (collection s) path /\
  file_hashes (run (index_file world filepath) s) !! path = file_hashes s !! path.
Proof. apply index_file_frame. Qed.

Lemma index_file_other_documents_witness :
  length (Collection.get_where (collection indexed_twice) "notes/b.markdown") = 2 /\
  file_hashes indexed_twice !! "notes/b.markdown"%string = Some "h3"%string /\
  Collection.get_where
    (collection (run (index_file (calm "y" "h2") note_path) indexed_twice))
    "notes/b.markdown" =
  Collection.get_where (collection indexed_twice) "notes/b.markdown" /\
  file_hashes (run (index_file (calm "y" "h2") note_path) indexed_twice)
    !! "notes/b.markdown"%string =
  file_hashes indexed_twice !! "notes/b.markdown"%string.
Proof.
  split; [reflexivity|]. split; [reflexivity|].
  apply (index_file_other_documents (calm "y" "h2") note_path indexed_twice
           "notes/b.markdown").
  - apply indexed_twice_well_kept.
  - discriminate.
Defined.

(** X10: when the write of the metadata file completes, [index_file] and
    [remove_file] leave the metadata file holding exactly [file_hashes],
    whatever else raises. *)
Theorem save_keeps_in_sync (world : World) (filepath : FilePath) (s : Indexer) :
  save_io world = SaveCompletes ->
  in_sync s ->
  in_sync (run (index_file world filepath) s) /\
  in_sync (run (remove_file world filepath) s).
Proof.
  intros Hsave Hsync. split;
    [by apply index_file_in_sync|by apply remove_file_in_sync].
Qed.

Lemma save_keeps_in_sync_witness :
  in_sync (run (index_file (add_fails "y" "h2") note_path) indexed_once) /\
  in_sync (run (remove_file (add_fails "y" "h2") note_path) indexed_once).
Proof.
  apply (save_keeps_in_sync (add_fails "y" "h2") note_path indexed_once);
    [reflexivity | vm_compute; reflexivity].
Defined.

Section RemoveFacts.

Lemma get_where_removed world c rel :
  get_raises world = false -> delete_raises world = false ->
  Collection.get_where (removal world c rel) rel = [].
Proof.
  intros Hget Hdel. unfold removal. rewrite Hget, Hdel. simpl.
  apply get_where_without.
Qed.

Lemma without_chunks_none c rel :
  Collection.get_where c rel = [] -> without_chunks c rel = c.
Proof. intros Hnone. unfold without_chunks. by rewrite Hnone. Qed.

Lemma removal_none world c rel :
  Collection.get_where c rel = [] -> removal world c rel = c.
Proof.
  intros Hnone. unfold removal.
  destruct (get_raises world || delete_raises world); [done|].
  by apply without_chunks_none.
Qed.

Lemma remove_file_gone world filepath rel s :
  relative_to_vault filepath = Some rel ->
  get_raises world = false ->
  delete_raises world = false ->
  Collection.get_where (collection (run (remove_file world filepath) s)) rel = [] /\
  file_hashes (run (remove_file world filepath) s) !! rel = None.
Proof.
  intros Hrel Hget Hdel.
  rewrite (remove_file_run world filepath rel s) by done. simpl.
  case_decide as Hin; simpl.
  - split; [by apply get_where_removed|apply lookup_delete_eq].
  - split; [by apply get_where_removed|].
    by apply eq_None_not_Some.
Qed.

End RemoveFacts.

(** X11: when [get] and [delete] do not raise, [remove_file] leaves no
    record of the document in the collection and no fingerprint for it. *)
Theorem remove_file_removes (world : World) (filepath : FilePath)
    (rel : string) (s : Indexer) :
  relative_to_vault filepath = Some rel ->
  get_raises world = false ->
  delete_raises world = false ->
  Collection.get_where (collection (run (remove_file world filepath) s)) rel = [] /\
  file_hashes (run (remove_file world filepath) s) !! rel = None.
Proof. apply remove_file_gone. Qed.

Lemma remove_file_removes_witness :
  Collection.get_where
    (collection (run (remove_file (calm "x" "h1") note_path) indexed_once))
    "notes/a.md" = [] /\
  file_hashes (run (remove_file (calm "x" "h1") note_path) indexed_once)
    !! "notes/a.md"%string = None.
Proof.
  apply (remove_file_removes (calm "x" "h1") note_path "notes/a.md" indexed_once);
    reflexivity.
Defined.

(** X12: removing a document a second time changes nothing, in whatever
    world the second call runs, once a first call got through [get] and
    [delete]. *)
Theorem remove_file_twice (w1 w2 : World) (filepath : FilePath) (s : Indexer) :
  get_raises w1 = false ->
  delete_raises w1 = false ->
  run (remove_file w2 filepath) (run (remove_file w1 filepath) s) =
    run (remove_file w1 filepath) s.
Proof.
  intros Hget Hdel.
  destruct (relative_to_vault filepath) as [rel|] eqn:Hrel;
    [|by rewrite !remove_file_no_path].
  destruct (remove_file_gone w1 filepath rel s Hrel Hget Hdel) as [Hnone Hgone].
  set (s1 := run (remove_file w1 filepath) s) in *.
  rewrite (remove_file_run w2 filepath rel s1) by done. simpl.
  rewrite decide_False by (rewrite Hgone; by intros [? ?]).
  rewrite removal_none by done. apply set_collection_id.
Qed.

Lemma remove_file_twice_witness :
  run (remove_file (delete_fails "x" "h") note_path)
    (run (remove_file (calm "x" "h1") note_path) indexed_once) =
  run (remove_file (calm "x" "h1") note_path) indexed_once.
Proof.
  apply (remove_file_twice (calm "x" "h1") (delete_fails "x" "h") note_path
           indexed_once); reflexivity.
Defined.

(** X13: when [get] or [delete] raises, [remove_file] still drops the
    fingerprint of the document, while its records stay in the collection. *)
Theorem remove_file_failed_removal (world : World) (filepath : FilePath)
    (rel : string) (s : Indexer) :
  relative_to_vault filepath = Some rel ->
  get_raises world = true \/ delete_raises world = true ->
  collection (run (remove_file world filepath) s) = collection s /\
  file_hashes (run (remove_file world filepath) s) !! rel = None.
Proof.
  intros Hrel Hfail.
  rewrite (remove_file_run world filepath rel s) by done. simpl.
  assert (removal world (collection s) rel = collection s) as ->.
  { unfold removal. destruct Hfail as [-> | ->]; [done|by rewrite orb_true_r]. }
  case_decide as Hin; simpl.
  - split; [done|apply lookup_delete_eq].
  - split; [done|by apply eq_None_not_Some].
Qed.

Lemma remove_file_failed_removal_witness :
  collection (run (remove_file (delete_fails "x" "h1") note_path) indexed_once) =
    collection indexed_once /\
  file_hashes (run (remove_file (delete_fails "x" "h1") note_path) indexed_once)
    !! "notes/a.md"%string = None.
Proof.
  apply (remove_file_failed_removal (delete_fails "x" "h1") note_path
           "notes/a.md" indexed_once); [reflexivity|by right].
Defined.

(** X14: in every world, [remove_file] for one document leaves the stored
    records and the fingerprint of every other document as they were. *)
Theorem remove_file_other_documents (world : World) (filepath : FilePath)
    (s : Indexer) (path : string) :
  canonical (collection s) ->
  relative_to_vault filepath <> Some path ->
  Collection.get_where (collection (run (remove_file world filepath) s)) path =
    Collection.get_where (collection s) path /\
  file_hashes (run (remove_file world filepath) s) !! path = file_hashes s !! path.
Proof.
  intros Hcan Hp.
  destruct (relative_to_vault filepath) as [rel|] eqn:Hrel;
    [|by rewrite remove_file_no_path].
  assert (path <> rel) as Hne by congruence.
  rewrite (remove_file_run world filepath rel s) by done. simpl.
  case_decide; simpl.
  - split; [by apply get_where_removal_other|by rewrite lookup_delete_ne].
  - split; [by apply get_where_removal_other|done].
Qed.

Lemma remove_file_other_documents_witness :
  length (Collection.get_where (collection indexed_twice) "notes/b.markdown") = 2 /\
  file_hashes indexed_twice !! "notes/b.markdown"%string = Some "h3"%string /\
  Collection.get_where
    (collection (run (remove_file (calm "x" "h1") note_path) indexed_twice))
    "notes/b.markdown" =
  Collection.get_where (collection indexed_twice) "notes/b.markdown" /\
  file_hashes (run (remove_file (calm "x" "h1") note_path) indexed_twice)
    !! "notes/b.markdown"%string =
  file_hashes indexed_twice !! "notes/b.markdown"%string.
Proof.
  split; [reflexivity|]. split; [reflexivity|].
  apply (remove_file_other_documents (calm "x" "h1") note_path indexed_twice
           "notes/b.markdown").
  - apply indexed_twice_well_kept.
  - discriminate.
Defined.

Section Retry.

Lemma index_file_fails_early world filepath rel s :
  relative_to_vault filepath = Some rel ->
  fails_early world ->
  canonical (collection s) ->
  exists c1,
    run (index_file world filepath) s = set_collection c1 s /\
    canonical c1 /\
    (Collection.get_where (collection s) rel = [] ->
     is_Some (file_hashes s !! rel) \/ Collection.get_where c1 rel = []).
Proof.
  intros Hrel Hfail Hcan.
  destruct (index_file_cases world filepath s)
    as [-> | (rel' & content & hash & Hmd & Hread & Hhash & Hrel' & Hne)].
  { exists (collection s). rewrite set_collection_id. auto. }
  assert (rel' = rel) as -> by congruence.
  destruct Hfail as [Hf | [Hf | Hf]]; [congruence..|].
  rewrite (index_file_run world filepath rel content hash s) by done.
  simpl. rewrite Hf.
  eexists. split; [done|]. case_decide.
  - split; [by apply canonical_removal|auto].
  - auto.
Qed.

End Retry.

(** X15: a call of [index_file] on a markdown file under the vault that
    fails before the fingerprint is recorded (the file cannot be read or
    hashed, or [collection.add] raises) is healed by the next call in which
    nothing raises, provided that the hash this next call computes differs
    from the stored fingerprint (else it returns early and heals nothing),
    that every stored id is the one built from path and index, and that the
    document had a fingerprint or no records before the failing call: the
    document then has exactly the records of its current content, its new
    fingerprint is in [file_hashes], and the metadata file holds
    [file_hashes]. *)
Theorem index_file_retry (w1 w2 : World) (filepath : FilePath)
    (rel content hash : string) (s : Indexer) :
  markdown filepath ->
  relative_to_vault filepath = Some rel ->
  fails_early w1 ->
  succeeds w2 content hash ->
  canonical (collection s) ->
  file_hashes s !! rel <> Some hash ->
  is_Some (file_hashes s !! rel) \/ Collection.get_where (collection s) rel = [] ->
  Collection.get_where
    (collection (run (index_file w2 filepath) (run (index_file w1 filepath) s)))
    rel = chunk_records filepath rel (stem filepath) content /\
  file_hashes (run (index_file w2 filepath) (run (index_file w1 filepath) s)) =
    <[rel := hash]> (file_hashes s) /\
  in_sync (run (index_file w2 filepath) (run (index_file w1 filepath) s)).
Proof.
  intros Hmd Hrel Hfail Hok Hcan Hne Hold.
  destruct (index_file_fails_early w1 filepath rel s Hrel Hfail Hcan)
    as (c1 & -> & Hcan1 & Hnone).
  rewrite (index_file_syncs w2 filepath rel content hash) by done.
  unfold in_sync. simpl. split; [|done].
  apply get_where_add_fresh.
  - case_decide; [by apply canonical_without|done].
  - case_decide as Hin; [apply get_where_without|].
    destruct Hold as [?|Hempty]; [done|].
    by destruct (Hnone Hempty).
  - apply chunk_records_of_document.
Qed.

Lemma index_file_retry_witness :
  Collection.get_where
    (collection (run (index_file (calm "y" "h2") note_path)
                   (run (index_file (add_fails "y" "h2") note_path) indexed_once)))
    "notes/a.md" = chunk_records note_path "notes/a.md" (stem note_path) "y" /\
  file_hashes (run (index_file (calm "y" "h2") note_path)
                 (run (index_file (add_fails "y" "h2") note_path) indexed_once)) =
    <["notes/a.md"%string := "h2"%string]> (file_hashes indexed_once) /\
  in_sync (run (index_file (calm "y" "h2") note_path)
             (run (index_file (add_fails "y" "h2") note_path) indexed_once)).
Proof.
  apply (index_file_retry (add_fails "y" "h2") (calm "y" "h2") note_path
           "notes/a.md" "y" "h2" indexed_once).
  - unfold markdown. simpl. set_solver.
  - reflexivity.
  - right. right. reflexivity.
  - repeat split.
  - apply index_file_canonical. constructor.
  - vm_compute. discriminate.
  - left. vm_compute. eauto.
Defined.

Section InitialIndex.

Lemma index_file_returns world filepath s :
  (index_file world filepath s).1 = Some tt.
Proof.
  unfold index_file. case_bool_decide; [|done].
  done.
Qed.

Lemma initial_index_cons world filepath rest s :
  run (initial_index ((world, filepath) :: rest)) s =
    run (initial_index rest) (run (index_file world filepath) s).
Proof.
  unfold run. simpl.
  pose proof (index_file_returns world filepath s) as Hret.
  unfold mbind, Sync_bind.
  destruct (index_file world filepath s) as [[[]|] s1]; simpl in *; done.
Qed.

Lemma initial_index_nil s : run (initial_index []) s = s.
Proof. done. Qed.

Lemma initial_index_app l1 : forall l2 s,
  run (initial_index (l1 ++ l2)) s =
    run (initial_index l2) (run (initial_index l1) s).
Proof.
  induction l1 as [|[world filepath] l1 IH]; intros l2 s; [done|].
  rewrite <- app_comm_cons, !initial_index_cons. apply IH.
Qed.

End InitialIndex.

(** X16: [initial_index] over files whose stored fingerprints are their
    current hashes changes nothing: no record, no fingerprint, no write. *)
Theorem initial_index_unchanged (md_files : list (World * FilePath)) (s : Indexer) :
  Forall (unchanged s) md_files ->
  run (initial_index md_files) s = s.
Proof.
  induction 1 as [|[world filepath] rest (rel & hash & Hrel & Hhash & Hsame) _ IH];
    [done|].
  rewrite initial_index_cons.
  by rewrite (index_file_unchanged world filepath rel hash s).
Qed.

Lemma initial_index_unchanged_witness :
  run (initial_index [(delete_fails "z" "h1", note_path);
                      (add_fails "z" "h1", note_path)]) indexed_once =
  indexed_once.
Proof.
  apply (initial_index_unchanged
           [(delete_fails "z" "h1", note_path); (add_fails "z" "h1", note_path)]
           indexed_once).
  repeat constructor; exists "notes/a.md"%string, "h1"%string;
    (split; [reflexivity|split; [reflexivity|vm_compute; reflexivity]]).
Defined.

(** X17: a scan never stops at a file: whatever the calls of [index_file]
    meet, scanning one list after another is scanning the two lists, and
    the scan of a list that ends with a file is the scan of the rest
    followed by [index_file] on that file. *)
Theorem initial_index_sequence (l1 l2 : list (World * FilePath))
    (world : World) (filepath : FilePath) (s : Indexer) :
  run (initial_index (l1 ++ l2)) s =
    run (initial_index l2) (run (initial_index l1) s) /\
  run (initial_index (l1 ++ [(world, filepath)])) s =
    run (index_file world filepath) (run (initial_index l1) s).
Proof.
  split; [apply initial_index_app|].
  by rewrite initial_index_app, initial_index_cons.
Qed.

(** X18: [initial_index] only adds: a fingerprint present before the scan
    is present after it, and a document whose file is not scanned keeps its
    records and its fingerprint. *)
Theorem initial_index_additive (md_files : list (World * FilePath))
    (s : Indexer) (path : string) :
  canonical (collection s) ->
  (is_Some (file_hashes s !! path) ->
   is_Some (file_hashes (run (initial_index md_files) s) !! path)) /\
  (not_scanned path md_files ->
   Collection.get_where (collection (run (initial_index md_files) s)) path =
     Collection.get_where (collection s) path /\
   file_hashes (run (initial_index md_files) s) !! path = file_hashes s !! path).
Proof.
  revert s. induction md_files as [|[world filepath] rest IH]; intros s Hcan.
  { by rewrite initial_index_nil. }
  rewrite initial_index_cons.
  destruct (IH (run (index_file world filepath) s)) as [IHin IHout];
    [by apply index_file_canonical|].
  split.
  - intros Hin. by apply IHin, index_file_keeps_entries.
  - intros Hnot. apply Forall_cons in Hnot as [Hp Hrest]. simpl in Hp.
    destruct (IHout Hrest) as [-> ->].
    by apply index_file_frame.
Qed.

Lemma initial_index_additive_witness :
  (is_Some (file_hashes indexed_once !! "notes/a.md"%string) ->
   is_Some (file_hashes
              (run (initial_index [(calm "z" "h3", other_path)]) indexed_once)
              !! "notes/a.md"%string)) /\
  (not_scanned "notes/a.md" [(calm "z" "h3", other_path)] ->
   Collection.get_where
     (collection (run (initial_index [(calm "z" "h3", other_path)]) indexed_once))
     "notes/a.md" =
     Collection.get_where (collection indexed_once) "notes/a.md" /\
   file_hashes (run (initial_index [(calm "z" "h3", other_path)]) indexed_once)
     !! "notes/a.md"%string =
   file_hashes indexed_once !! "notes/a.md"%string).
Proof.
  apply (initial_index_additive [(calm "z" "h3", other_path)] indexed_once
           "notes/a.md").
  apply index_file_canonical. constructor.
Defined.

(** X19: [initial_index] keeps the collection well kept, and keeps the
    metadata file in step with [file_hashes] when every write it makes
    completes. *)
Theorem initial_index_invariant (md_files : list (World * FilePath)) (s : Indexer) :
  well_kept (collection s) ->
  well_kept (collection (run (initial_index md_files) s)) /\
  (Forall (fun entry => save_io entry.1 = SaveCompletes) md_files ->
   in_sync s -> in_sync (run (initial_index md_files) s)).
Proof.
  revert s. induction md_files as [|[world filepath] rest IH]; intros s Hwk.
  { by rewrite initial_index_nil. }
  rewrite initial_index_cons.
  destruct (IH (run (index_file world filepath) s)) as [IHwk IHsync];
    [by apply index_file_well_kept|].
  split; [done|].
  intros Hsaves Hsync. apply Forall_cons in Hsaves as [Hsave Hrest].
  apply IHsync; [done|]. by apply index_file_in_sync.
Qed.

Lemma initial_index_invariant_witness :
  well_kept (collection
    (run (initial_index [(calm "x" "h1", note_path); (delete_fails "y" "h2", note_path)])
       empty_indexer)) /\
  (Forall (fun entry => save_io entry.1 = SaveCompletes)
     [(calm "x" "h1", note_path); (delete_fails "y" "h2", note_path)] ->
   in_sync empty_indexer ->
   in_sync (run (initial_index [(calm "x" "h1", note_path);
                                (delete_fails "y" "h2", note_path)])
              empty_indexer)).
Proof.
  apply (initial_index_invariant
           [(calm "x" "h1", note_path); (delete_fails "y" "h2", note_path)]
           empty_indexer).
  apply well_kept_empty.
Defined.

Section FileHashFacts.

Lemma block_size_pos : 0 < BLOCK_SIZE.
Proof. unfold BLOCK_SIZE. apply Nat.lt_0_succ. Qed.

Global Opaque BLOCK_SIZE.

Variable Hasher : Type.
Variable update : Hasher -> list ascii -> Hasher.
Hypothesis update_app : forall h a b, update (update h a) b = update h (a ++ b).
Hypothesis update_nil : forall h, update h [] = h.

Lemma read_blocks_all : forall fuel f h,
  length f < fuel ->
  FileHash.read_blocks Hasher update fuel f h = Some (update h f).
Proof.
  pose proof block_size_pos as Hpos.
  induction fuel as [|fuel IH]; intros f h Hlt; [lia|].
  simpl. destruct (take BLOCK_SIZE f) as [|b chunk] eqn:Htake.
  - destruct f as [|b f]; [by rewrite update_nil|].
    destruct BLOCK_SIZE; [lia|done].
  - rewrite IH.
    + by rewrite update_app, <- Htake, take_drop.
    + rewrite length_drop. destruct f; [done|]. simpl in *. lia.
Qed.

End FileHashFacts.

(** X20: [calculate_file_hash] reads the file in blocks of 4096 bytes and
    always comes to an end; for a hash object on which two updates are one
    update with the concatenation, its result is the digest of the whole
    content, whatever the length of the file. *)
Theorem calculate_file_hash_whole (Hasher : Type) (md5 : Hasher)
    (update : Hasher -> list ascii -> Hasher) (hexdigest : Hasher -> string)
    (content : list ascii) :
  (forall h a b, update (update h a) b = update h (a ++ b)) ->
  (forall h, update h [] = h) ->
  FileHash.calculate_file_hash Hasher md5 update hexdigest content =
    Some (hexdigest (update md5 content)).
Proof.
  intros Happ Hnil. unfold FileHash.calculate_file_hash.
  rewrite (read_blocks_all Hasher update Happ Hnil) by lia. done.
Qed.

Lemma calculate_file_hash_whole_witness :
  FileHash.calculate_file_hash nat 0 checksum_update pretty
    (repeat "a"%char 4500) =
  Some (pretty (checksum_update 0 (repeat "a"%char 4500))).
Proof.
  apply (calculate_file_hash_whole nat 0 checksum_update pretty
           (repeat "a"%char 4500)).
  - intros h a b. unfold checksum_update. symmetry. apply fold_left_app.
  - reflexivity.
Defined.

(** X21: [index_file] has no effect at all, on the collection, on
    [file_hashes] or on the metadata file, when the suffix is neither [.md]
    nor [.markdown], when the file cannot be read or hashed, or when it does
    not lie under the vault. *)
Theorem index_file_no_effect (world : World) (filepath : FilePath) (s : Indexer) :
  ~ markdown filepath \/ read_text world = None \/
  calculate_file_hash world = None \/ relative_to_vault filepath = None ->
  run (index_file world filepath) s = s.
Proof.
  intros Hwhy.
  destruct (index_file_cases world filepath s)
    as [-> | (rel & content & hash & Hmd & Hread & Hhash & Hrel & Hne)]; [done|].
  destruct Hwhy as [?|[?|[?|?]]]; [done|congruence..].
Qed.

Lemma index_file_no_effect_witness :
  run (index_file (read_fails "h2") note_path) indexed_once = indexed_once.
Proof.
  apply (index_file_no_effect (read_fails "h2") note_path indexed_once).
  right. left. reflexivity.
Defined.

(** X22: when the removal of the chunks fails inside [remove_file] and the
    file is indexed again later, every record stored before is still
    stored, no new record takes the place of a stored one with its id, and
    the new fingerprint is recorded all the same. *)
Theorem remove_file_failure_leaves_stale (w1 w2 : World) (filepath : FilePath)
    (rel content hash : string) (s : Indexer) :
  markdown filepath ->
  relative_to_vault filepath = Some rel ->
  get_raises w1 = true \/ delete_raises w1 = true ->
  succeeds w2 content hash ->
  records (collection s) ⊆
    records (collection (run (index_file w2 filepath)
                           (run (remove_file w1 filepath) s))) /\
  (forall r,
     r ∈ records (collection (run (index_file w2 filepath)
                                (run (remove_file w1 filepath) s))) ->
     rec_id r ∈ rec_id <$> records (collection s) ->
     r ∈ records (collection s)) /\
  file_hashes (run (index_file w2 filepath) (run (remove_file w1 filepath) s))
    !! rel = Some hash.
Proof.
  intros Hmd Hrel Hfail Hok.
  assert (exists s1, run (remove_file w1 filepath) s = s1 /\
            collection s1 = collection s /\ file_hashes s1 !! rel = None)
    as (s1 & -> & Hcol & Hgone).
  { eexists. split; [done|].
    rewrite (remove_file_run w1 filepath rel s) by done. simpl.
    assert (removal w1 (collection s) rel = collection s) as ->.
    { unfold removal. destruct Hfail as [-> | ->]; [done|by rewrite orb_true_r]. }
    case_decide as Hin; simpl.
    - split; [done|apply lookup_delete_eq].
    - split; [done|by apply eq_None_not_Some]. }
  rewrite (index_file_syncs w2 filepath rel content hash s1)
    by (done || by rewrite Hgone).
  simpl. rewrite decide_False by (rewrite Hgone; by intros [? ?]).
  rewrite Hcol. simpl. split; [|split].
  - intros r Hr. apply elem_of_app. by left.
  - intros r Hr Hid. apply elem_of_app in Hr as [?|Hr]; [done|].
    apply list_elem_of_filter in Hr as [Hfresh _]. done.
  - apply lookup_insert_eq.
Qed.

Lemma remove_file_failure_leaves_stale_witness :
  records (collection indexed_once) ⊆
    records (collection (run (index_file (calm "y" "h2") note_path)
                           (run (remove_file (delete_fails "x" "h1") note_path)
                              indexed_once))) /\
  (forall r,
     r ∈ records (collection (run (index_file (calm "y" "h2") note_path)
                                (run (remove_file (delete_fails "x" "h1") note_path)
                                   indexed_once))) ->
     rec_id r ∈ rec_id <$> records (collection indexed_once) ->
     r ∈ records (collection indexed_once)) /\
  file_hashes (run (index_file (calm "y" "h2") note_path)
                 (run (remove_file (delete_fails "x" "h1") note_path) indexed_once))
    !! "notes/a.md"%string = Some "h2"%string.
Proof.
  apply (remove_file_failure_leaves_stale (delete_fails "x" "h1") (calm "y" "h2")
           note_path "notes/a.md" "y" "h2" indexed_once).
  - unfold markdown. simpl. set_solver.
  - reflexivity.
  - right. reflexivity.
  - repeat split.
Defined.

Section SearchMore.

Lemma sorted_nonempty (chunks : list ChunkRecord) :
  chunks <> [] -> exists first rest, sorted le chunk_order chunks = first :: rest.
Proof.
  intros Hne. pose proof (sorted_perm le chunk_order chunks) as Hperm.
  destruct (sorted le chunk_order chunks) as [|first rest]; [|by eauto].
  symmetry in Hperm. by apply Permutation_nil_r in Hperm.
Qed.

Lemma reconstruct_get store path d chunks :
  get store path = Some chunks -> chunks <> [] ->
  exists a, reconstruct store (path, d) = Some (Some a) /\
    article_file_path a = path /\ article_relevance_score a = (1 - d)%Q.
Proof.
  intros Hget Hne. unfold reconstruct. rewrite Hget. simpl.
  destruct (sorted_nonempty chunks Hne) as (first & rest & ->).
  destruct chunks as [|c chunks]; [done|]. simpl. by eexists.
Qed.

Lemma reconstruct_all_skip store e es acc :
  reconstruct store e = Some None ->
  reconstruct_all store (e :: es) acc = reconstruct_all store es acc.
Proof. intros Hmade. simpl. by rewrite Hmade. Qed.

Lemma reconstruct_all_keep store e es acc a :
  reconstruct store e = Some (Some a) ->
  reconstruct_all store (e :: es) acc = reconstruct_all store es (acc ++ [a]).
Proof. intros Hmade. simpl. by rewrite Hmade. Qed.

Lemma reconstruct_all_total store es : forall acc,
  Forall (fun e => is_Some (get store e.1)) es ->
  exists arts, reconstruct_all store es acc = Some (acc ++ arts) /\
    forall e a, e ∈ es -> reconstruct store e = Some (Some a) -> a ∈ arts.
Proof.
  induction es as [|[path d] es IH]; intros acc Hall.
  { exists []. rewrite app_nil_r. split; [done|]. by intros e a ?%elem_of_nil. }
  apply Forall_cons in Hall as [[chunks Hget] Hall]. simpl in Hget.
  destruct (decide (chunks = [])) as [->|Hne].
  - assert (reconstruct store (path, d) = Some None) as Hnone
      by (unfold reconstruct; by rewrite Hget).
    destruct (IH acc Hall) as (arts & Hrun & Hin).
    exists arts. rewrite (reconstruct_all_skip _ _ _ _ Hnone). split; [done|].
    intros e a [->|He]%elem_of_cons Hmade; [congruence|by eapply Hin].
  - destruct (reconstruct_get store path d chunks Hget Hne) as (a0 & Hmade0 & _).
    destruct (IH (acc ++ [a0]) Hall) as (arts & Hrun & Hin).
    exists (a0 :: arts). rewrite (reconstruct_all_keep _ _ _ _ _ Hmade0).
    rewrite Hrun, <- app_assoc. split; [done|].
    intros e a [->|He]%elem_of_cons Hmade.
    + assert (a = a0) as -> by congruence. by left.
    + right. by eapply Hin.
Qed.

End SearchMore.

(** X23: [search_full] leaves out no ranked document that has chunks: when
    [collection.get] raises for none of the files it looks up, every file
    among the first [limit] of the ranking whose chunks the collection
    holds is in the result, with one minus its ranked distance as score. *)
Theorem search_full_complete (store : Store) (q : string) (limit : Z)
    (path : string) (d : Distance) (chunks : list ChunkRecord) :
  Forall (fun e => is_Some (get store e.1))
    (slice_to limit (sorted Qle snd (collect_scores (matches store q limit)))) ->
  (path, d) ∈
    slice_to limit (sorted Qle snd (collect_scores (matches store q limit))) ->
  get store path = Some chunks ->
  chunks <> [] ->
  exists a, a ∈ search_full store q limit /\
    article_file_path a = path /\ article_relevance_score a = (1 - d)%Q.
Proof.
  unfold search_full, matches. intros Hall Hin Hget Hne.
  destruct (reconstruct_get store path d chunks Hget Hne) as (a & Hmade & Hpath & Hscore).
  exists a. split; [|done].
  destruct (query store q (limit * 3)%Z) as [[|h hits]|]; simpl in *.
  - unfold slice_to in Hin. case_decide; rewrite take_nil in Hin;
      by apply elem_of_nil in Hin.
  - destruct (reconstruct_all_total store _ [] Hall) as (arts & -> & Harts).
    simpl. by eapply Harts.
  - unfold slice_to in Hin. case_decide; rewrite take_nil in Hin;
      by apply elem_of_nil in Hin.
Qed.

Lemma search_full_complete_witness :
  exists a, a ∈ search_full sample_store "q" 2 /\
    article_file_path a = "a"%string /\
    article_relevance_score a = (1 - (2 # 10))%Q.
Proof.
  apply (search_full_complete sample_store "q" 2 "a" (2 # 10)
           [sample_record "a" 2 "A2"; sample_record "a" 0 "a";
            sample_record "a" 1 "A1"]).
  - vm_compute. repeat constructor; eauto.
  - vm_compute. right. left.
  - reflexivity.
  - discriminate.
Defined.

Section RoundTrip.

Lemma chunk_content_short title content :
  Utf8.valid (Utf8.encode content) = true ->
  byte_length content <= STEP_SIZE ->
  chunk_content title content =
    (title, 0, 0) ::
    (if decide (content = EmptyString) then []
     else [(content, 0, byte_length content)]).
Proof.
  intros Hvalid Hle. destruct content as [|c content]; [done|].
  rewrite decide_False by done.
  pose proof sizes as (Hc & _ & Hs).
  unfold chunk_content, byte_length in *.
  set (bs := Utf8.encode (String c content)) in *.
  destruct (length bs) as [|fuel] eqn:Hlen; [done|].
  rewrite chunk_loop_S, Hlen. case_decide; [|lia].
  replace (Nat.min (0 + CHUNK_SIZE) (S fuel) - 0) with (S fuel) by lia.
  rewrite trim_decode_S.
  assert (slice bs 0 (0 + S fuel) = bs) as ->.
  { unfold slice. rewrite drop_0, take_ge; [done|lia]. }
  unfold Utf8.decode. rewrite Hvalid.
  rewrite chunk_loop_done by lia.
  subst bs. unfold Utf8.encode. by rewrite string_of_list_ascii_of_string.
Qed.

Lemma index_file_exact world filepath rel content hash s :
  markdown filepath ->
  relative_to_vault filepath = Some rel ->
  succeeds world content hash ->
  canonical (collection s) ->
  file_hashes s !! rel <> Some hash ->
  is_Some (file_hashes s !! rel) \/ Collection.get_where (collection s) rel = [] ->
  Collection.get_where (collection (run (index_file world filepath) s)) rel =
    chunk_records filepath rel (stem filepath) content.
Proof.
  intros Hmd Hrel Hok Hcan Hne Hold.
  rewrite (index_file_syncs world filepath rel content hash) by done. simpl.
  apply get_where_add_fresh.
  - case_decide; [by apply canonical_without|done].
  - case_decide as Hin; [apply get_where_without|]. by destruct Hold.
  - apply chunk_records_of_document.
Qed.

End RoundTrip.

(** X24: what [index_file] stores, [search_full] gives back.  Let a call
    of [index_file] in which nothing raises run on a markdown file under the
    vault whose content is well-formed UTF-8 of at most 768 bytes and whose
    hash differs from the stored fingerprint, in a state where every stored
    id is the one built from path and index and where the document has a
    fingerprint or has no records (no records left behind by a failed
    removal).  Then, whatever the query and the matches, an article
    [search_full] returns for the path of the file holds the content of the
    file, its stem as title and its path as full path. *)
Theorem index_then_search (world : World) (filepath : FilePath)
    (rel content hash : string) (s : Indexer)
    (answers : string -> Z -> option (list Hit)) (q : string) (limit : Z)
    (a : Article) :
  markdown filepath ->
  relative_to_vault filepath = Some rel ->
  succeeds world content hash ->
  canonical (collection s) ->
  file_hashes s !! rel <> Some hash ->
  is_Some (file_hashes s !! rel) \/ Collection.get_where (collection s) rel = [] ->
  Utf8.valid (Utf8.encode content) = true ->
  byte_length content <= STEP_SIZE ->
  a ∈ search_full
        (store_of (collection (run (index_file world filepath) s)) answers)
        q limit ->
  article_file_path a = rel ->
  article_content a = content /\
  article_title a = stem filepath /\
  article_full_path a = path_str filepath.
Proof.
  intros Hmd Hrel Hok Hcan Hne Hold Hvalid Hle Ha Hpath.
  pose proof (index_file_exact world filepath rel content hash s
                Hmd Hrel Hok Hcan Hne Hold) as Hrecs.
  set (s' := run (index_file world filepath) s) in *.
  destruct (search_full_kept (store_of (collection s') answers) q limit)
    as (kept & _ & Hmade).
  apply list_elem_of_lookup in Ha as [i Hi].
  destruct (Forall2_lookup_r _ _ _ _ _ Hmade Hi) as ([path best] & _ & He).
  apply reconstruct_article in He
    as (chunks & first & rest & Hget & _ & Hsorted & ->).
  simpl in Hpath. subst path. simpl in Hget. injection Hget as <-.
  rewrite Hrecs in Hsorted. unfold chunk_records in Hsorted.
  rewrite chunk_content_short in Hsorted by done.
  case_decide as Hempty.
  - subst content. injection Hsorted as <- <-. done.
  - injection Hsorted as <- <-. done.
Qed.

Lemma index_then_search_witness :
  article_content note_article = "x"%string /\
  article_title note_article = stem note_path /\
  article_full_path note_article = path_str note_path.
Proof.
  apply (index_then_search (calm "x" "h1") note_path "notes/a.md" "x" "h1"
           empty_indexer note_answers "q" 5 note_article).
  - unfold markdown. constructor.
  - reflexivity.
  - repeat split; reflexivity.
  - constructor.
  - vm_compute. discriminate.
  - right. reflexivity.
  - reflexivity.
  - vm_compute. lia.
  - vm_compute. left.
  - reflexivity.
Defined.

Section MidCharacter.

Lemma valid_cont b r : Utf8.is_cont b = true -> Utf8.valid (b :: r) = false.
Proof.
  intros Hb. cbn [Utf8.valid].
  unfold Utf8.is_ascii, Utf8.is_cont, Utf8.in_range in *.
  apply andb_true_iff in Hb as [Hlo Hhi].
  apply N.leb_le in Hlo, Hhi.
  set (n := N_of_ascii b) in *.
  assert ((n <=? 127)%N = false) as H1 by (apply N.leb_gt; lia).
  assert ((194 <=? n)%N = false) as H2 by (apply N.leb_gt; lia).
  assert ((224 <=? n)%N = false) as H3 by (apply N.leb_gt; lia).
  assert ((240 <=? n)%N = false) as H4 by (apply N.leb_gt; lia).
  by rewrite H1, H2, H3, H4, andb_false_r.
Qed.

Lemma no_window_at_cont title content pos b w :
  Utf8.encode content !! pos = Some b ->
  Utf8.is_cont b = true ->
  w ∈ windows title content ->
  chunk_start w <> pos.
Proof.
  intros Hb Hcont Hw Hstart. rewrite windows_loop in Hw.
  destruct (chunk_loop_windows (Utf8.encode content)
              (length (Utf8.encode content)) 0) as [Hok _].
  rewrite Forall_forall in Hok.
  destruct (Hok w Hw) as (_ & Hlt & _ & _ & Hdec).
  apply decode_Some in Hdec as [Hvalid _].
  rewrite Hstart in Hvalid, Hlt. unfold slice in Hvalid.
  rewrite (drop_S _ b pos Hb) in Hvalid.
  destruct (chunk_end w - pos) as [|n] eqn:Hn; [lia|].
  rewrite firstn_cons, valid_cont in Hvalid; done.
Qed.

End MidCharacter.

(** X25: when the byte at a window start [768 k] is inside a character, the
    loop makes no window there, and the bytes from [768 k + 256] up to the
    next window start are in no chunk at all. *)
Theorem chunk_content_mid_character (title content : string) (k : nat)
    (b : ascii) :
  Utf8.encode content !! (k * STEP_SIZE) = Some b ->
  Utf8.is_cont b = true ->
  (forall w, w ∈ windows title content -> chunk_start w <> k * STEP_SIZE) /\
  (forall p w,
     k * STEP_SIZE + OVERLAP_SIZE <= p < (k + 1) * STEP_SIZE ->
     w ∈ windows title content ->
     ~ (chunk_start w <= p < chunk_end w)).
Proof.
  intros Hb Hcont. pose proof sizes as (Hc & Ho & Hs).
  split; [intros w; by apply (no_window_at_cont title content _ b)|].
  intros p w Hp Hw Hin.
  pose proof (no_window_at_cont title content _ b w Hb Hcont Hw) as Hnot.
  rewrite windows_loop in Hw.
  destruct (chunk_loop_windows (Utf8.encode content)
              (length (Utf8.encode content)) 0) as [Hok _].
  pose proof (chunk_loop_starts (Utf8.encode content)
                (length (Utf8.encode content)) 0) as Hstarts.
  rewrite Forall_forall in Hok, Hstarts.
  destruct (Hok w Hw) as (_ & _ & Hsize & _ & _).
  destruct (Hstarts w Hw) as [j Hj].
  rewrite Hc in Hsize. rewrite Ho, Hs in Hp. rewrite Hs in Hj, Hnot.
  assert (j = k) as -> by lia. lia.
Qed.

Lemma chunk_content_mid_character_witness :
  (forall w, w ∈ windows "t" shifted_euros -> chunk_start w <> 1 * STEP_SIZE) /\
  (forall p w,
     1 * STEP_SIZE + OVERLAP_SIZE <= p < (1 + 1) * STEP_SIZE ->
     w ∈ windows "t" shifted_euros ->
     ~ (chunk_start w <= p < chunk_end w)).
Proof.
  apply (chunk_content_mid_character "t" shifted_euros 1 (ascii_of_N 0xAC));
    vm_compute; reflexivity.
Defined.

(** X26: the fuel of the loop of [chunk_content] is enough: the loop has
    come to its end within as many rounds as the content has bytes, and
    more rounds add nothing. *)
Theorem chunk_content_enough_fuel (title content : string) (extra : nat) :
  chunk_loop (byte_length content + extra) (Utf8.encode content) 0
    [(title, 0, 0)] = chunk_content title content.
Proof. apply chunk_content_fuel. Qed.

Section WatcherFacts.

Lemma remove_file_returns world filepath s :
  (remove_file world filepath s).1 = Some tt.
Proof. done. Qed.

Lemma dispatch_cases world event s :
  dispatch world event s = (Some tt, s) \/
  dispatch world event s = index_file world (src_path event) s \/
  dispatch world event s = remove_file world (src_path event) s.
Proof.
  unfold dispatch, on_created, on_modified, on_deleted.
  destruct (kind event), (negb (is_directory event) && src_markdown event); auto.
Qed.

Lemma dispatch_returns world event s : (dispatch world event s).1 = Some tt.
Proof.
  destruct (dispatch_cases world event s) as [-> | [-> | ->]];
    [done|apply index_file_returns|apply remove_file_returns].
Qed.

Lemma watch_cons world event rest s :
  run (watch ((world, event) :: rest)) s =
    run (watch rest) (run (dispatch world event) s).
Proof.
  unfold run. simpl.
  pose proof (dispatch_returns world event s) as Hret.
  unfold mbind, Sync_bind.
  destruct (dispatch world event s) as [[[]|] s1]; simpl in *; done.
Qed.

Lemma initial_index_returns md_files : forall s,
  (initial_index md_files s).1 = Some tt.
Proof.
  induction md_files as [|[world filepath] rest IH]; intros s; [done|].
  simpl. pose proof (index_file_returns world filepath s) as Hret.
  unfold mbind, Sync_bind.
  destruct (index_file world filepath s) as [[[]|] s1]; simpl in *; [|done].
  apply IH.
Qed.

Lemma serve_run md_files events s :
  run (serve md_files events) s =
    run (watch events) (run (initial_index md_files) s).
Proof.
  unfold run, serve.
  pose proof (initial_index_returns md_files s) as Hret.
  unfold mbind, Sync_bind.
  destruct (initial_index md_files s) as [[[]|] s1]; simpl in *; done.
Qed.

Lemma dispatch_well_kept world event s :
  well_kept (collection s) ->
  well_kept (collection (run (dispatch world event) s)).
Proof.
  intros Hwk. unfold run.
  destruct (dispatch_cases world event s) as [-> | [-> | ->]];
    [done|by apply index_file_well_kept|by apply remove_file_well_kept].
Qed.

Lemma dispatch_in_sync world event s :
  save_io world = SaveCompletes -> in_sync s ->
  in_sync (run (dispatch world event) s).
Proof.
  intros Hsave Hsync. unfold run.
  destruct (dispatch_cases world event s) as [-> | [-> | ->]];
    [done|by apply index_file_in_sync|by apply remove_file_in_sync].
Qed.

Lemma watch_invariant events : forall s,
  well_kept (collection s) ->
  well_kept (collection (run (watch events) s)) /\
  (Forall (fun entry => save_io entry.1 = SaveCompletes) events ->
   in_sync s -> in_sync (run (watch events) s)).
Proof.
  induction events as [|[world event] rest IH]; intros s Hwk; [done|].
  rewrite watch_cons.
  destruct (IH (run (dispatch world event) s)) as [IHwk IHsync];
    [by apply dispatch_well_kept|].
  split; [done|].
  intros Hsaves Hsync. apply Forall_cons in Hsaves as [Hsave Hrest].
  apply IHsync; [done|]. by apply dispatch_in_sync.
Qed.

Lemma initial_index_keeps md_files : forall s,
  well_kept (collection s) ->
  well_kept (collection (run (initial_index md_files) s)) /\
  (Forall (fun entry => save_io entry.1 = SaveCompletes) md_files ->
   in_sync s -> in_sync (run (initial_index md_files) s)).
Proof.
  induction md_files as [|[world filepath] rest IH]; intros s Hwk.
  { by rewrite initial_index_nil. }
  rewrite initial_index_cons.
  destruct (IH (run (index_file world filepath) s)) as [IHwk IHsync];
    [by apply index_file_well_kept|].
  split; [done|].
  intros Hsaves Hsync. apply Forall_cons in Hsaves as [Hsave Hrest].
  apply IHsync; [done|]. by apply index_file_in_sync.
Qed.

End WatcherFacts.

(** X27: the watcher as [main] runs it: whatever files the initial scan
    finds, whatever events follow and whatever fails on the way, a well
    kept collection stays well kept; and the metadata file holds exactly
    [file_hashes] as long as every write of it completes. *)
Theorem serve_invariant (md_files : list (World * FilePath))
    (events : list (World * Event)) (s : Indexer) :
  well_kept (collection s) ->
  well_kept (collection (run (serve md_files events) s)) /\
  (Forall (fun entry => save_io entry.1 = SaveCompletes) md_files ->
   Forall (fun entry => save_io entry.1 = SaveCompletes) events ->
   in_sync s ->
   in_sync (run (serve md_files events) s)).
Proof.
  intros Hwk0. rewrite serve_run.
  destruct (initial_index_keeps md_files s Hwk0) as [Hwk Hsync].
  destruct (watch_invariant events _ Hwk) as [Hwk' Hsync'].
  split; [done|]. intros Hfiles Hevents Hsync0. apply Hsync'; [done|].
  by apply Hsync.
Qed.

Lemma serve_invariant_witness :
  well_kept (collection
    (run (serve [(add_fails "x" "h1", other_path)] note_events) empty_indexer)) /\
  (Forall (fun entry => save_io entry.1 = SaveCompletes)
     [(add_fails "x" "h1", other_path)] ->
   Forall (fun entry => save_io entry.1 = SaveCompletes) note_events ->
   in_sync empty_indexer ->
   in_sync (run (serve [(add_fails "x" "h1", other_path)] note_events)
              empty_indexer)).
Proof.
  apply (serve_invariant [(add_fails "x" "h1", other_path)] note_events
           empty_indexer).
  apply well_kept_empty.
Defined.
